(** * Column storage of stacked document arrays

    A shallow embedding of [docarray/array/stacked/column_storage.py]:
    the [ColumnStorage] container with its four column groups, and
    [ColumnStorageView], the per-row mapping that reads and writes through
    to the columns of the storage it is bound to.

    Storages are shared and mutated through the views bound to them, so
    they live in a heap; a method is a computation over that heap which
    either returns or raises. A column belongs to the dictionary slot
    that holds it, and a write to one of its cells is a write to that
    slot. *)

From Stdlib Require Import ZArith Lia.
From stdpp Require Import gmap strings list.

Local Coercion Z.of_nat : nat >-> Z.

(** ** Exceptions and results *)

Inductive exn :=
  | KeyError (key : string)
  | IndexError (msg : string)
  | ValueError (msg : string)
  | RuntimeError (msg : string)
  | SystemError (msg : string)
  | TypeError (msg : string).

Inductive result (A : Type) :=
  | Ok (a : A)
  | Raise (e : exn).
Arguments Ok {A} a.
Arguments Raise {A} e.

Definition result_bind {A B} (r : result A) (f : A → result B) : result B :=
  match r with
  | Ok a => f a
  | Raise e => Raise e
  end.

Definition is_IndexError (e : exn) : Prop :=
  match e with IndexError _ => True | _ => False end.

Definition is_KeyError (e : exn) : Prop :=
  match e with KeyError _ => True | _ => False end.

Definition is_RuntimeError (e : exn) : Prop :=
  match e with RuntimeError _ => True | _ => False end.

(** The text an exception carries (its [args]). *)
Definition exn_text (e : exn) : string :=
  match e with
  | KeyError k => k
  | IndexError m | ValueError m | RuntimeError m | SystemError m
  | TypeError m => m
  end.

(** Whether the text of an exception mentions a word, and whether it
    names a column by its group and key. The groups go by the word that
    tells them apart, which the attribute name [tensor_columns] and any
    other way of naming the group contains. *)
Definition mentions (w : string) (e : exn) : bool :=
  match String.index 0 w (exn_text e) with
  | Some _ => true
  | None => false
  end.

Definition names_column (e : exn) (group key : string) : bool :=
  mentions group e && mentions key e.

Definition group_names : list string := ["tensor"; "doc"; "da"; "any"].

(** ** Index expressions

    [IndexIterType = Union[slice, Iterable[int], Iterable[bool], None]].
    A sequence of indices arrives as a list or as a tuple. *)

Record pyslice := Slice {
  sl_start : option Z;
  sl_stop : option Z;
  sl_step : option Z
}.

Inductive index_seq :=
  | IntSeq (l : list Z)
  | BoolSeq (l : list bool).

Inductive Item :=
  | ISlice (sl : pyslice)
  | IList (q : index_seq)
  | ITuple (q : index_seq)
  | INone.

(** [slice(None)] *)
Definition slice_all : pyslice := Slice None None None.

(** Modelled from the spec: the column classes ([ListAdvanceIndex],
    [DocumentArrayStacked], the tensor types) are not among the sources.
    The position an integer index denotes in a column of length [n]: rows
    are the positions [0 .. n-1] (glossary, Row); as in every Python
    sequence a negative index [i ≥ -n] stands for [n + i]; any other
    integer is out of range (section 4.3). *)
Definition position (n : nat) (i : Z) : option nat :=
  if bool_decide (0 ≤ i < n)%Z then Some (Z.to_nat i)
  else if bool_decide (- n ≤ i < 0)%Z then Some (Z.to_nat (i + n))
  else None.

(** Modelled from the spec: section 4.3 accepts a slice as index of a
    column (classes not among the sources) and says no more about it; its
    bounds over a column of length [n] are those of Python's
    [slice.indices], here for a positive step. *)
Definition clamp_up (n : nat) (o : option Z) (dflt : Z) : Z :=
  match o with
  | None => dflt
  | Some i => if bool_decide (i < 0)%Z then Z.max (i + n) 0 else Z.min i n
  end.

(** Modelled from the spec: the bounds of a slice of negative step, as
    [clamp_up] (column classes not among the sources). *)
Definition clamp_down (n : nat) (o : option Z) (dflt : Z) : Z :=
  match o with
  | None => dflt
  | Some i => if bool_decide (i < 0)%Z then Z.max (i + n) (-1) else Z.min i (n - 1)
  end.

(** Modelled from the spec: the positions a slice selects in a column of
    length [n] (column classes not among the sources), in the order it
    selects them: upwards from the start for a positive step, downwards
    for a negative one; a step of 0 is a [ValueError]. *)
Definition slice_positions (n : nat) (sl : pyslice) : result (list nat) :=
  let st := default 1%Z (sl_step sl) in
  if bool_decide (st = 0)%Z then Raise (ValueError "slice step cannot be zero")
  else if bool_decide (0 < st)%Z then
    let lo := clamp_up n (sl_start sl) 0 in
    let hi := clamp_up n (sl_stop sl) n in
    Ok (filter (λ p : nat, (lo ≤ p < hi)%Z ∧ ((p - lo) `mod` st = 0)%Z) (seq 0 n))
  else
    let hi := clamp_down n (sl_start sl) (n - 1) in
    let lo := clamp_down n (sl_stop sl) (-1) in
    Ok (filter (λ p : nat, (lo < p ≤ hi)%Z ∧ ((hi - p) `mod` (- st) = 0)%Z)
          (reverse (seq 0 n))).

(** [if isinstance(item, tuple): item = list(item)] *)
Definition normalize_item (item : Item) : Item :=
  match item with
  | ITuple q => IList q
  | _ => item
  end.

(** How many rows an index expression selects from a sequence of length
    [n], or how it is rejected. *)
Definition rows_selected (n : nat) (item : Item) : result nat :=
  match item with
  | ISlice sl => result_bind (slice_positions n sl) (λ ps, Ok (length ps))
  | IList (IntSeq l) =>
      if forallb (λ i, bool_decide (is_Some (position n i))) l then Ok (length l)
      else Raise (IndexError "index out of range")
  | IList (BoolSeq m) =>
      if bool_decide (length m = n) then Ok (length (filter (λ b, b = true) m))
      else Raise (IndexError "boolean index did not match the column length")
  | ITuple _ | INone => Raise (IndexError "unsupported index")
  end.

(** Index expressions a storage of [n] rows accepts: a slice (of a step
    other than 0), integers that each denote one of the [n] rows, a mask
    of length [n]; in a list or in a tuple. *)
Definition accepted (n : nat) (item : Item) : Prop :=
  match item with
  | ISlice sl => sl_step sl ≠ Some 0%Z
  | IList (IntSeq l) | ITuple (IntSeq l) => Forall (λ i, (- n ≤ i < n)%Z) l
  | IList (BoolSeq m) | ITuple (BoolSeq m) => length m = n
  | INone => False
  end.

(** Index expressions a storage of [n] rows must refuse: an integer that
    denotes no row (in particular one that is [n] or more), a mask of
    another length, an index of no known shape. *)
Definition rejected (n : nat) (item : Item) : Prop :=
  match item with
  | ISlice _ => False
  | IList (IntSeq l) | ITuple (IntSeq l) => Exists (λ i, (n ≤ i ∨ i < - n)%Z) l
  | IList (BoolSeq m) | ITuple (BoolSeq m) => length m ≠ n
  | INone => True
  end.

Section ColumnStorage.

Context {Value : Type}.

(** ** Columns

    The column classes ([ListAdvanceIndex], [DocumentArrayStacked], the
    tensor types) are not among the sources. Section 4.3 of the
    specification gives the one indexing contract all four kinds of
    column expose; a column is taken here as the sequence of its rows. *)
Local Abbreviation column := (list Value).

(** Modelled from the spec: [col[i]] for a column, whose class is not
    among the sources: the value at the row the index denotes, an
    [IndexError] when it is out of range (sections 3 and 4.3). *)
Definition col_get (c : column) (i : Z) : result Value :=
  match position (length c) i ≫= (c !!.) with
  | Some x => Ok x
  | None => Raise (IndexError "index out of range")
  end.

(** Modelled from the spec: [col[i] = v] for a column, whose class is not
    among the sources: the value is written as it is at the row the index
    denotes, in place (section 4.2, set); an [IndexError] when the index
    is out of range. *)
Definition col_set (c : column) (i : Z) (v : Value) : result column :=
  match position (length c) i with
  | Some p => Ok (<[p := v]> c)
  | None => Raise (IndexError "assignment index out of range")
  end.

(** Modelled from the spec: gathering by an integer list, for a column
    whose class is not among the sources: the output follows the list, so
    rows may repeat and change places; one out-of-range integer fails the
    whole with an [IndexError] (section 4.3). *)
Fixpoint col_gather (c : column) (l : list Z) : result column :=
  match l with
  | [] => Ok []
  | i :: l' =>
      result_bind (col_get c i) (λ x,
      result_bind (col_gather c l') (λ xs, Ok (x :: xs)))
  end.

(** Modelled from the spec: selection by a boolean mask, for a column
    whose class is not among the sources: the rows where the mask is true,
    in their original order (section 4.3). *)
Fixpoint mask_select (m : list bool) (c : column) : column :=
  match m, c with
  | b :: m', x :: c' => if b then x :: mask_select m' c' else mask_select m' c'
  | _, _ => []
  end.

(** Modelled from the spec: [col[item]] for a column, whose class is not
    among the sources: a slice, an integer list or a boolean mask of the
    column's length gives a new column of the selected rows; a mask of
    another length and an index of any other shape fail with an
    [IndexError] (sections 4.1 and 4.3). *)
Definition col_getitem (c : column) (item : Item) : result column :=
  match item with
  | ISlice sl =>
      result_bind (slice_positions (length c) sl) (λ ps, Ok (omap (c !!.) ps))
  | IList (IntSeq l) => col_gather c l
  | IList (BoolSeq m) =>
      if bool_decide (length m = length c) then Ok (mask_select m c)
      else Raise (IndexError "boolean index did not match the column length")
  | ITuple _ | INone => Raise (IndexError "unsupported index")
  end.

(** ** Dictionaries

    A [dict] keeps its items in insertion order, one item per key. *)
Local Abbreviation dict := (list (string * column)).

Fixpoint dict_get (d : dict) (k : string) : option column :=
  match d with
  | [] => None
  | (k', c) :: d' => if decide (k' = k) then Some c else dict_get d' k
  end.

(** The column under key [k] after it was mutated in place into [c]. *)
Fixpoint dict_set (d : dict) (k : string) (c : column) : dict :=
  match d with
  | [] => []
  | (k', c') :: d' =>
      if decide (k' = k) then (k', c) :: d' else (k', c') :: dict_set d' k c
  end.

Definition dict_keys (d : dict) : list string := d.*1.

(** [{key: f(col) for key, col in d.items()}], where [f] may raise. *)
Fixpoint dict_comp (f : column → result column) (d : dict) : result dict :=
  match d with
  | [] => Ok []
  | (k, c) :: d' =>
      result_bind (f c) (λ c',
      result_bind (dict_comp f d') (λ r, Ok ((k, c') :: r)))
  end.

(** ** [collections.ChainMap] *)

(** [ChainMap.__getitem__]: the first mapping that has the key answers;
    [__missing__] raises [KeyError(key)]. *)
Fixpoint ChainMap_getitem (maps : list dict) (key : string) : result column :=
  match maps with
  | [] => Raise (KeyError key)
  | m :: maps' =>
      match dict_get m key with
      | Some c => Ok c
      | None => ChainMap_getitem maps' key
      end
  end.

(** [d.update(dict.fromkeys(mapping))] on the keys of [d]: a key already
    there keeps its place, a new one goes to the end. *)
Definition keys_update (d : list string) (ks : list string) : list string :=
  foldl (λ acc k, if decide (k ∈ acc) then acc else acc ++ [k]) d ks.

(** [ChainMap.__iter__]:
    [d = {}; for mapping in reversed(self.maps): d.update(dict.fromkeys(mapping));
     return iter(d)]. *)
Definition ChainMap_keys (maps : list dict) : list string :=
  foldl (λ d m, keys_update d (dict_keys m)) [] (reverse maps).

(** ** [ColumnStorage]

    The attributes of the object as [__init__] sets them; the two classes
    [document_type] and [tensor_type] are known by name. *)

Record ColumnStorage := mkColumnStorage {
  tensor_columns : dict;
  doc_columns : dict;
  da_columns : dict;
  any_columns : dict;
  document_type : string;
  tensor_type : string
}.

(** [self.columns = ChainMap(self.tensor_columns, self.doc_columns,
    self.da_columns, self.any_columns)]: the chain map refers to the four
    dictionaries of the storage, it does not copy them. *)
Definition columns (s : ColumnStorage) : list dict :=
  [tensor_columns s; doc_columns s; da_columns s; any_columns s].

(** The storage after the column that [columns[name]] resolves to was
    mutated in place into [c]. *)
Definition write_column (s : ColumnStorage) (name : string) (c : column)
  : ColumnStorage :=
  match dict_get (tensor_columns s) name, dict_get (doc_columns s) name,
        dict_get (da_columns s) name with
  | Some _, _, _ =>
      mkColumnStorage (dict_set (tensor_columns s) name c) (doc_columns s)
        (da_columns s) (any_columns s) (document_type s) (tensor_type s)
  | None, Some _, _ =>
      mkColumnStorage (tensor_columns s) (dict_set (doc_columns s) name c)
        (da_columns s) (any_columns s) (document_type s) (tensor_type s)
  | None, None, Some _ =>
      mkColumnStorage (tensor_columns s) (doc_columns s)
        (dict_set (da_columns s) name c) (any_columns s)
        (document_type s) (tensor_type s)
  | None, None, None =>
      mkColumnStorage (tensor_columns s) (doc_columns s) (da_columns s)
        (dict_set (any_columns s) name c) (document_type s) (tensor_type s)
  end.

(** ** The heap and computations over it *)

Local Abbreviation loc := nat.
Local Abbreviation heap := (gmap nat ColumnStorage).

Definition M (A : Type) : Type := heap → result A * heap.

Definition ret {A} (a : A) : M A := λ h, (Ok a, h).
Definition raise {A} (e : exn) : M A := λ h, (Raise e, h).
Definition lift {A} (r : result A) : M A := λ h, (r, h).

Definition bind {A B} (m : M A) (f : A → M B) : M B := λ h,
  match m h with
  | (Ok a, h') => f a h'
  | (Raise e, h') => (Raise e, h')
  end.

Notation "'do' x <- m ; k" := (bind m (λ x, k))
  (at level 10, x name, m at level 100, k at level 200, only parsing).

(** Reading through a reference. A reference always leads to a live
    object; a location without one is reported as an interpreter fault. *)
Definition load (l : loc) : M ColumnStorage := λ h,
  match h !! l with
  | Some s => (Ok s, h)
  | None => (Raise (SystemError "dangling reference"), h)
  end.

Definition store (l : loc) (s : ColumnStorage) : M unit := λ h,
  (Ok (), <[l := s]> h).

Definition alloc (s : ColumnStorage) : M loc := λ h,
  let l := fresh (dom h) in (Ok l, <[l := s]> h).

(** [ColumnStorage.__len__] *)
Definition ColumnStorage_len (self : loc) : M nat :=
  do s <- load self;
  match dict_get (any_columns s) "id" with
  | Some c => ret (length c)
  | None => raise (KeyError "id")
  end.

(** [ColumnStorage.__getitem__] *)
Definition ColumnStorage_getitem (self : loc) (item : Item) : M loc :=
  do s <- load self;
  let item := normalize_item item in
  do tensor_columns' <-
    lift (dict_comp (λ col, col_getitem col item) (tensor_columns s));
  do doc_columns' <-
    lift (dict_comp (λ col, col_getitem col item) (doc_columns s));
  do da_columns' <-
    lift (dict_comp (λ col, col_getitem col item) (da_columns s));
  do any_columns' <-
    lift (dict_comp (λ col, col_getitem col item) (any_columns s));
  alloc (mkColumnStorage tensor_columns' doc_columns' da_columns' any_columns'
           (document_type s) (tensor_type s)).

(** ** [ColumnStorageView]

    The view is a [dict] subclass: next to [index] and [storage] it has
    the items of the [dict] it inherits from. No method of the class
    assigns to [self] or calls an inherited method after [__init__]. *)
Record ColumnStorageView := mkView {
  index : Z;
  storage : loc;
  dict_items : list (string * Value)
}.

(** [ColumnStorageView.__init__]: [super().__init__()] makes the inherited
    dictionary empty. *)
Definition ColumnStorageView_init (index : Z) (storage : loc)
  : ColumnStorageView :=
  mkView index storage [].

(** [ColumnStorageView.__getitem__] *)
Definition view_getitem (self : ColumnStorageView) (name : string) : M Value :=
  do s <- load (storage self);
  do col <- lift (ChainMap_getitem (columns s) name);
  lift (col_get col (index self)).

(** [ColumnStorageView.__setitem__] *)
Definition view_setitem (self : ColumnStorageView) (name : string)
    (value : Value) : M unit :=
  do s <- load (storage self);
  do col <- lift (ChainMap_getitem (columns s) name);
  do col' <- lift (col_set col (index self) value);
  store (storage self) (write_column s name col').

(** [ColumnStorageView.__delitem__] *)
Definition view_delitem (self : ColumnStorageView) (key : string) : M unit :=
  raise (RuntimeError "Cannot delete an item from a StorageView").

(** The object [self.storage.columns.keys()] answers: a keys view, which
    refers to the chain map of a storage and reads it when it is
    iterated. It is iterable; it is not an iterator (it has no
    [__next__]). *)
Record KeysView := mkKeysView {
  kv_mapping : loc
}.

(** [ColumnStorageView.__iter__]: [return self.storage.columns.keys()]. *)
Definition ColumnStorageView_iter (self : ColumnStorageView) : M KeysView :=
  do s <- load (storage self);
  ret (mkKeysView (storage self)).

(** Iterating a keys view of a chain map: its keys, as the chain map is
    at that time. *)
Definition KeysView_iter (kv : KeysView) : M (list string) :=
  do s <- load (kv_mapping kv);
  ret (ChainMap_keys (columns s)).

(** The builtin [iter(view)], which [for k in view], [list(view)] and
    every other iteration of a view go through: it calls [__iter__] and
    takes the answer only when that is an iterator. *)
Definition builtin_iter (self : ColumnStorageView) : M (list string) :=
  do kv <- ColumnStorageView_iter self;
  raise (TypeError "iter() returned non-iterator of type 'KeysView'").

(** [list(view.__iter__())]: the names the keys view yields that a
    direct call of [__iter__] returns. This is not [iter(view)], which
    is [builtin_iter]. *)
Definition view_iter (self : ColumnStorageView) : M (list string) :=
  do s <- load (storage self);
  ret (ChainMap_keys (columns s)).

(** Lookup in the items of an inherited dictionary. *)
Fixpoint items_get (d : list (string * Value)) (k : string) : option Value :=
  match d with
  | [] => None
  | (k', v) :: d' => if decide (k' = k) then Some v else items_get d' k
  end.

(** [dict.__eq__], which the view inherits: the two underlying
    dictionaries have as many items, and every item of the first is in the
    second with an equal value; nothing the view overrides is consulted. *)
Definition dict_eq `{EqDecision Value} (a b : list (string * Value)) : bool :=
  bool_decide (length a = length b)
  && forallb (λ kv, match items_get b kv.1 with
                    | Some w => bool_decide (kv.2 = w)
                    | None => false
                    end) a.

Definition view_eq `{EqDecision Value} (v1 v2 : ColumnStorageView) : bool :=
  dict_eq (dict_items v1) (dict_items v2).

(** [ChainMap.__len__]: the [len] of the [set] that is the union of the
    key sets of all the maps. *)
Definition ChainMap_len (maps : list dict) : nat :=
  size (⋃ ((λ m, list_to_set (dict_keys m)) <$> maps) : gset string).

(** [ColumnStorageView.__len__] *)
Definition view_len (self : ColumnStorageView) : M nat :=
  do s <- load (storage self);
  ret (ChainMap_len (columns s)).

(** The value at row [p] of the column under [k] in one group. *)
Definition cell (d : dict) (k : string) (p : nat) : option Value :=
  dict_get d k ≫= (.!! p).

(** [d'] is [d] with [item] applied to each column on its own. *)
Definition applied (item : Item) (d d' : dict) : Prop :=
  Forall2 (λ kc kc', kc'.1 = kc.1 ∧ col_getitem kc.2 item = Ok kc'.2) d d'.

(** What [ColumnStorage.__getitem__] builds from a storage, before the
    new object is allocated. *)
Definition index_storage (s : ColumnStorage) (item : Item)
  : result ColumnStorage :=
  let item := normalize_item item in
  result_bind (dict_comp (λ col, col_getitem col item) (tensor_columns s)) (λ tc,
  result_bind (dict_comp (λ col, col_getitem col item) (doc_columns s)) (λ dc,
  result_bind (dict_comp (λ col, col_getitem col item) (da_columns s)) (λ ac,
  result_bind (dict_comp (λ col, col_getitem col item) (any_columns s)) (λ yc,
  Ok (mkColumnStorage tc dc ac yc (document_type s) (tensor_type s)))))).

(** Every column of every group replaced by its image under [f]. *)
Definition map_columns (f : column → column) (s : ColumnStorage)
  : ColumnStorage :=
  mkColumnStorage (prod_map id f <$> tensor_columns s)
    (prod_map id f <$> doc_columns s) (prod_map id f <$> da_columns s)
    (prod_map id f <$> any_columns s) (document_type s) (tensor_type s).

(** Rows [A, B, C] gathered as [C, A, A], and masked down to [A, C]. *)
Definition rows_CAA (col : column) : column :=
  match col with
  | [A; B; C] => [C; A; A]
  | _ => col
  end.

Definition rows_AC (col : column) : column :=
  match col with
  | [A; B; C] => [A; C]
  | _ => col
  end.

(** ** Invariants of a storage (section 3 of the specification) *)

Definition all_columns (s : ColumnStorage) : dict :=
  tensor_columns s ++ doc_columns s ++ da_columns s ++ any_columns s.

(** I1: every column of every group has length [n]. *)
Definition I1 (s : ColumnStorage) (n : nat) : Prop :=
  Forall (λ kc, length kc.2 = n) (all_columns s).

(** I2: a field name appears once, in one group. *)
Definition I2 (s : ColumnStorage) : Prop :=
  NoDup (dict_keys (all_columns s)).

(** I3: [any_columns['id']] exists and has length [n]. *)
Definition I3 (s : ColumnStorage) (n : nat) : Prop :=
  ∃ c, dict_get (any_columns s) "id" = Some c ∧ length c = n.

(** A key that is in none of the four groups. *)
Definition absent (s : ColumnStorage) (k : string) : Prop :=
  (k ∉ dict_keys (tensor_columns s)) ∧ (k ∉ dict_keys (doc_columns s)) ∧
  (k ∉ dict_keys (da_columns s)) ∧ (k ∉ dict_keys (any_columns s)).

Definition wf (s : ColumnStorage) (n : nat) : Prop :=
  I1 s n ∧ I2 s ∧ I3 s n.

End ColumnStorage.

(** ** A storage of three rows

    The scenario of section 8 of the specification: identifiers
    [a, b, c], tags [1, 2, 3] and a tensor column [vec] of three rows of
    length 4. *)

Inductive pyvalue :=
  | VStr (s : string)
  | VInt (z : Z)
  | VRow (xs : list Z).

#[global] Instance pyvalue_eq_dec : EqDecision pyvalue.
Proof. solve_decision. Defined.

Definition scenario : @ColumnStorage pyvalue :=
  mkColumnStorage
    [("vec", [VRow [0; 0; 0; 0]; VRow [1; 1; 1; 1]; VRow [2; 2; 2; 2]]%Z)]
    [] []
    [("id", [VStr "a"; VStr "b"; VStr "c"]);
     ("tag", [VInt 1; VInt 2; VInt 3])]
    "MyDoc" "NdArray".

Definition scenario_heap : gmap nat (@ColumnStorage pyvalue) :=
  {[ 0 := scenario ]}.

(** The same rows with the tensor column held under another key. *)
Definition scenario_renamed : @ColumnStorage pyvalue :=
  mkColumnStorage
    [("embedding", [VRow [0; 0; 0; 0]; VRow [1; 1; 1; 1]; VRow [2; 2; 2; 2]]%Z)]
    [] []
    [("id", [VStr "a"; VStr "b"; VStr "c"]);
     ("tag", [VInt 1; VInt 2; VInt 3])]
    "MyDoc" "NdArray".

(** A storage in which the name [x] is held by the tensor group and by
    the any group. *)
Definition shadowing : @ColumnStorage pyvalue :=
  mkColumnStorage
    [("x", [VInt 1; VInt 2])] [] []
    [("id", [VStr "a"; VStr "b"]); ("x", [VInt 10; VInt 20])]
    "MyDoc" "NdArray".

(** * Shape validation of tensors

    [AbstractTensor.__docarray_validate_shape__] of
    [docarray/typing/tensor/abstract_tensor.py]. The computational
    backend and the concrete tensor class are abstract in the source;
    what they contribute ([shape], [reshape], [_docarray_from_native],
    and the text of a tuple) is taken as parameters. The value returned
    comes with the warnings issued on the way. *)

Module AbstractTensor.

(** One dimension of a target shape: [Union[int, str]]. *)
Inductive dim :=
  | DInt (n : Z)
  | DStr (name : string).

#[global] Instance dim_eq_dec : EqDecision dim.
Proof. solve_decision. Defined.

Definition is_str (d : dim) : bool :=
  match d with
  | DStr _ => true
  | DInt _ => false
  end.

(** The integers of a shape that has no symbolic dimension. *)
Definition ints (shape : list dim) : list Z :=
  omap (λ d, match d with DInt n => Some n | DStr _ => None end) shape.

(** The loop over [zip(tshape, shape)] with its [known_dims]; [err] is
    the exception the three [raise] statements build. *)
Fixpoint check_dims (err : exn) (known_dims : gmap string Z)
    (pairs : list (Z * dim)) : result unit :=
  match pairs with
  | [] => Ok ()
  | (tdim, DInt n) :: rest =>
      if bool_decide (tdim ≠ n) then Raise err
      else check_dims err known_dims rest
  | (tdim, DStr name) :: rest =>
      match known_dims !! name with
      | Some v =>
          if bool_decide (v ≠ tdim) then Raise err
          else check_dims err (<[name := tdim]> known_dims) rest
      | None => check_dims err (<[name := tdim]> known_dims) rest
      end
  end.

Section Validate.

Context {Tensor Native : Type}.

(** [str] of a tuple, as an f-string inserts it. *)
Variable tuple_str : list dim → string.
(** [comp_be.shape] *)
Variable shape_of : Tensor → list Z.
(** [comp_be.reshape] *)
Variable reshape : Tensor → list Z → result Native.
(** [cls._docarray_from_native] *)
Variable from_native : Native → result Tensor.

Definition mismatch (shape : list dim) (tshape : list Z) : exn :=
  ValueError ("Tensor shape mismatch. Expected " +:+ tuple_str shape +:+
              ", got " +:+ tuple_str (DInt <$> tshape)).

(** [__docarray_validate_shape__] *)
Definition validate_shape (t : Tensor) (shape : list dim)
  : result Tensor * list string :=
  let tshape := shape_of t in
  if bool_decide (DInt <$> tshape = shape) then (Ok t, [])
  else if existsb is_str shape then
    if bool_decide (length tshape ≠ length shape)
    then (Raise (mismatch shape tshape), [])
    else
      (result_bind (check_dims (mismatch shape tshape) ∅ (zip tshape shape))
         (λ _, Ok t), [])
  else
    let warning :=
      "Tensor shape mismatch. Reshaping tensor of shape " +:+
      tuple_str (DInt <$> tshape) +:+ " to shape " +:+ tuple_str shape in
    (match result_bind (reshape t (ints shape)) from_native with
     | Ok value => Ok value
     | Raise (RuntimeError _) =>
         Raise (ValueError ("Cannot reshape tensor of shape " +:+
                            tuple_str (DInt <$> tshape) +:+ " to shape " +:+
                            tuple_str shape))
     | Raise e => Raise e
     end, [warning]).

End Validate.

(** A target shape read under a binding of its names. *)
Definition matches (σ : string → Z) (tdim : Z) (d : dim) : Prop :=
  match d with
  | DInt n => tdim = n
  | DStr name => tdim = σ name
  end.

End AbstractTensor.

(** * Python strings

    The operations of [str] the code below uses. *)

Module PyStr.

(** [s] without its prefix [sep], when it has that prefix. *)
Fixpoint strip_prefix (sep s : string) : option string :=
  match sep, s with
  | EmptyString, _ => Some s
  | String a sep', String b s' =>
      if decide (a = b) then strip_prefix sep' s' else None
  | String _ _, EmptyString => None
  end.

(** The text before and after the leftmost occurrence of [sep] in [s]. *)
Fixpoint find (sep s : string) : option (string * string) :=
  match strip_prefix sep s with
  | Some after => Some (EmptyString, after)
  | None =>
      match s with
      | EmptyString => None
      | String c s' => (λ ba, (String c ba.1, ba.2)) <$> find sep s'
      end
  end.

(** [s.split(sep, maxsplit)] for a separator that is not empty. *)
Fixpoint split (sep s : string) (maxsplit : nat) : list string :=
  match maxsplit with
  | 0 => [s]
  | S m =>
      match find sep s with
      | Some (before, after) => before :: split sep after m
      | None => [s]
      end
  end.

(** [sep] occurs in [s]. *)
Definition occurs (sep s : string) : Prop :=
  ∃ before after, s = before +:+ sep +:+ after.

End PyStr.

(** * Push and pull

    [PushPullMixin] of [docarray/array/array/pushpull/__init__.py]. The
    class attribute [__backends__] is the state; the backend classes and
    what their methods answer are parameters. This module has the
    exceptions of its own code. *)

Module PushPull.

Import PyStr.

Inductive exn :=
  | NotImplementedError (msg : string)
  | ValueError (msg : string)
  | KeyError (key : string).

Inductive result (A : Type) :=
  | Ok (a : A)
  | Raise (e : exn).
Arguments Ok {A} a.
Arguments Raise {A} e.

(** [protocol, name = parts] *)
Definition unpack2 (parts : list string) : result (string * string) :=
  match parts with
  | [protocol; name] => Ok (protocol, name)
  | [] => Raise (ValueError "not enough values to unpack (expected 2, got 0)")
  | [_] => Raise (ValueError "not enough values to unpack (expected 2, got 1)")
  | _ => Raise (ValueError "too many values to unpack (expected 2)")
  end.

(** [protocol, name = url.split('://', 2)] *)
Definition split_url (url : string) : result (string * string) :=
  unpack2 (split "://" url 2).

Section Mixin.

Context {Backend Listing Deleted Pushed Pulled DA Cls Branding : Type}.

(** The class the [jinaai] import provides. *)
Variable PushPullJAC : Backend.
(** What the static methods of a backend answer. *)
Variable backend_list : Backend → bool → Listing.
Variable backend_delete : Backend → string → Deleted.
Variable backend_push :
  Backend → DA → string → bool → bool → option Branding → Pushed.
Variable backend_pull : Backend → Cls → string → bool → bool → Pulled.

Local Abbreviation registry := (gmap string Backend).

Definition M (A : Type) : Type := registry → result A * registry.

Definition bind {A B} (m : M A) (f : A → M B) : M B := λ reg,
  match m reg with
  | (Ok a, reg') => f a reg'
  | (Raise e, reg') => (Raise e, reg')
  end.

(** [cls.__backends__[protocol]] *)
Definition backends_getitem (protocol : string) : M Backend := λ reg,
  match reg !! protocol with
  | Some b => (Ok b, reg)
  | None => (Raise (KeyError protocol), reg)
  end.

(** [PushPullMixin.get_backend] *)
Definition get_backend (protocol : string) : M Backend := λ reg,
  if bool_decide (protocol ∈ dom reg) then backends_getitem protocol reg
  else if bool_decide (protocol = "jinaai") then
    backends_getitem protocol (<[protocol := PushPullJAC]> reg)
  else if bool_decide (protocol = "file") then
    (Raise (NotImplementedError "file protocol not implemented yet"), reg)
  else if bool_decide (protocol = "s3") then
    (Raise (NotImplementedError "s3 protocol not implemented yet"), reg)
  else
    (Raise (NotImplementedError ("protocol " +:+ protocol +:+ " not supported")),
     reg).

(** [PushPullMixin.list] *)
Definition list (protocol : string) (show_table : bool) : M Listing :=
  bind (get_backend protocol) (λ b reg, (Ok (backend_list b show_table), reg)).

(** [PushPullMixin.delete] *)
Definition delete (url : string) : M Deleted := λ reg,
  match split_url url with
  | Raise e => (Raise e, reg)
  | Ok (protocol, name) =>
      bind (get_backend protocol)
        (λ b reg', (Ok (backend_delete b name), reg')) reg
  end.

(** [PushPullMixin.push] *)
Definition push (self : DA) (url : string) (public show_progress : bool)
    (branding : option Branding) : M Pushed := λ reg,
  match split_url url with
  | Raise e => (Raise e, reg)
  | Ok (protocol, name) =>
      bind (get_backend protocol)
        (λ b reg',
           (Ok (backend_push b self name public show_progress branding), reg'))
        reg
  end.

(** [PushPullMixin.pull] *)
Definition pull (cls : Cls) (url : string) (show_progress local_cache : bool)
  : M Pulled := λ reg,
  match split_url url with
  | Raise e => (Raise e, reg)
  | Ok (protocol, name) =>
      bind (get_backend protocol)
        (λ b reg',
           (Ok (backend_pull b cls name show_progress local_cache), reg'))
        reg
  end.

End Mixin.

End PushPull.

(** * Video URLs

    [VideoUrl] of [docarray/typing/url/video_url.py]: [validate], and the
    loop of [_load] over the frames the container decodes. The parent
    class and the [av] library are not among the sources: what
    [super().validate] answers is a parameter, and a frame is given with
    the array [to_ndarray] makes of it. *)

Module VideoUrl.

Import PyStr.

Definition VIDEO_FILE_FORMATS : list string := ["mp4"].

(** [ext in url] *)
Definition contains (ext url : string) : bool :=
  match find ext url with
  | Some _ => true
  | None => false
  end.

Section Validate.

Context {Value : Type}.

(** [AnyUrl.validate] *)
Variable super_validate : Value → result string.

(** [VideoUrl.validate] *)
Definition validate (value : Value) : result string :=
  result_bind (super_validate value) (λ url,
    let has_video_extension :=
      existsb (λ ext, contains ext url) VIDEO_FILE_FORMATS in
    if negb has_video_extension then
      Raise (ValueError
               "Video URL must have one of the following extensions:['mp4']")
    else Ok url).

End Validate.

Section Load.

Context {AudioArray VideoArray : Type}.

(** A decoded frame: an [AudioFrame] or a [VideoFrame], the latter with
    its [key_frame] attribute. *)
Inductive frame :=
  | AudioFrame (ndarray : AudioArray)
  | VideoFrame (ndarray : VideoArray) (key_frame : Z).

(** The body of the loop of [_load], on [audio_frames], [video_frames]
    and [keyframe_indices]. *)
Definition decode_step
    (st : list AudioArray * list VideoArray * list nat) (f : frame)
  : list AudioArray * list VideoArray * list nat :=
  let '(audio_frames, video_frames, keyframe_indices) := st in
  match f with
  | AudioFrame nd => (audio_frames ++ [nd], video_frames, keyframe_indices)
  | VideoFrame nd key_frame =>
      let video_frames := video_frames ++ [nd] in
      if bool_decide (key_frame = 1)%Z then
        let curr_index := length video_frames in
        (audio_frames, video_frames, keyframe_indices ++ [curr_index])
      else (audio_frames, video_frames, keyframe_indices)
  end.

(** The loop of [_load]. *)
Definition decode_frames (frames : list frame)
  : list AudioArray * list VideoArray * list nat :=
  foldl decode_step ([], [], []) frames.

(** The audio arrays and the video frames among the frames, in order. *)
Definition audio_of (frames : list frame) : list AudioArray :=
  omap (λ f, match f with AudioFrame nd => Some nd | _ => None end) frames.

Definition video_of (frames : list frame) : list (VideoArray * Z) :=
  omap (λ f, match f with VideoFrame nd k => Some (nd, k) | _ => None end)
    frames.

End Load.

End VideoUrl.

(** * Properties *)

Section Properties.

Context {Value : Type}.

Local Abbreviation column := (list Value).
Local Abbreviation dict := (list (string * column)).
Local Abbreviation loc := nat.
Local Abbreviation heap := (gmap nat (@ColumnStorage Value)).

(** ** Cells of a column *)

Lemma position_front (n : nat) (i : Z) :
  (0 ≤ i)%Z → position n i = if bool_decide (i < n)%Z then Some (Z.to_nat i) else None.
Proof.
  intros Hi. unfold position.
  repeat case_bool_decide; try reflexivity; lia.
Qed.

Lemma position_lt (n : nat) (i : Z) (p : nat) :
  position n i = Some p → p < n.
Proof.
  unfold position. repeat case_bool_decide; intros [= <-]; lia.
Qed.

Lemma col_set_length (c c' : column) i v :
  col_set c i v = Ok c' → length c' = length c.
Proof.
  unfold col_set. destruct (position _ _); intros [= <-].
  apply length_insert.
Qed.

Lemma col_set_ok (c : column) (i : Z) v :
  (0 ≤ i < length c)%Z → col_set c i v = Ok (<[Z.to_nat i := v]> c).
Proof.
  intros Hi. unfold col_set. rewrite position_front by lia.
  rewrite bool_decide_true by lia. reflexivity.
Qed.

Lemma col_get_set_eq (c c' : column) i v :
  col_set c i v = Ok c' → col_get c' i = Ok v.
Proof.
  intros Hset. unfold col_get. rewrite (col_set_length _ _ _ _ Hset).
  unfold col_set in Hset.
  destruct (position (length c) i) as [p|] eqn:Hp; [|discriminate].
  injection Hset as <-. simpl.
  rewrite list_lookup_insert_eq by (eapply position_lt; eassumption).
  reflexivity.
Qed.

Lemma col_get_set_ne (c c' : column) i j v :
  (0 ≤ i)%Z → (0 ≤ j)%Z → i ≠ j →
  col_set c i v = Ok c' → col_get c' j = col_get c j.
Proof.
  intros Hi Hj Hij Hset. unfold col_get.
  rewrite (col_set_length _ _ _ _ Hset).
  unfold col_set in Hset. rewrite position_front in Hset by assumption.
  rewrite position_front by assumption.
  case_bool_decide; [|discriminate]. injection Hset as <-.
  case_bool_decide; [|reflexivity]. simpl.
  rewrite list_lookup_insert_ne by lia. reflexivity.
Qed.

(** ** Dictionaries and the chain map *)

Lemma dict_get_None (d : dict) k :
  dict_get d k = None ↔ k ∉ dict_keys d.
Proof.
  induction d as [|[k' c] d IH]; simpl.
  - split; [intros _; apply not_elem_of_nil | reflexivity].
  - rewrite not_elem_of_cons. destruct (decide (k' = k)) as [->|Hne].
    + split; [discriminate | intros [? _]; congruence].
    + rewrite IH. split; [intros ?; split; congruence | intros [_ ?]; assumption].
Qed.

Lemma dict_get_Some_elem (d : dict) k c :
  dict_get d k = Some c → (k, c) ∈ d.
Proof.
  induction d as [|[k' c'] d IH]; simpl; [discriminate|].
  destruct (decide (k' = k)) as [->|Hne].
  - intros [= ->]. apply list_elem_of_here.
  - intros H. apply list_elem_of_further, IH, H.
Qed.

Lemma dict_get_set_eq (d : dict) k c :
  is_Some (dict_get d k) → dict_get (dict_set d k c) k = Some c.
Proof.
  induction d as [|[k' c'] d IH]; simpl; [intros [? [=]]|].
  destruct (decide (k' = k)) as [->|Hne]; simpl.
  - rewrite decide_True by reflexivity. reflexivity.
  - rewrite decide_False by assumption. exact IH.
Qed.

Lemma dict_get_set_ne (d : dict) k k' c :
  k ≠ k' → dict_get (dict_set d k c) k' = dict_get d k'.
Proof.
  intros Hne. induction d as [|[k0 c0] d IH]; simpl; [reflexivity|].
  destruct (decide (k0 = k)) as [->|Hk]; simpl.
  - rewrite !decide_False by assumption. reflexivity.
  - destruct (decide (k0 = k')); [reflexivity | exact IH].
Qed.

Lemma dict_set_absent (d : dict) k c :
  dict_get d k = None → dict_set d k c = d.
Proof.
  induction d as [|[k0 c0] d IH]; simpl; [reflexivity|].
  destruct (decide (k0 = k)); [discriminate|].
  intros H. rewrite IH by assumption. reflexivity.
Qed.

Lemma ChainMap_getitem_columns (s : @ColumnStorage Value) k :
  ChainMap_getitem (columns s) k =
  match dict_get (all_columns s) k with
  | Some c => Ok c
  | None => Raise (KeyError k)
  end.
Proof.
  assert (Happ : ∀ d1 d2 : dict, dict_get (d1 ++ d2) k =
            match dict_get d1 k with Some c => Some c | None => dict_get d2 k end).
  { intros d1 d2. induction d1 as [|[k' c'] d1 IH]; simpl; [reflexivity|].
    destruct (decide (k' = k)); [reflexivity | exact IH]. }
  unfold columns, all_columns. simpl. rewrite !Happ.
  destruct (dict_get (tensor_columns s) k); [reflexivity|].
  destruct (dict_get (doc_columns s) k); [reflexivity|].
  destruct (dict_get (da_columns s) k); [reflexivity|].
  destruct (dict_get (any_columns s) k); reflexivity.
Qed.

(** Reading a key after a write: the written key resolves to the written
    column, every other key to the column it had. *)
Lemma ChainMap_getitem_write_eq (s : @ColumnStorage Value) k c c' :
  ChainMap_getitem (columns s) k = Ok c →
  ChainMap_getitem (columns (write_column s k c')) k = Ok c'.
Proof.
  unfold write_column, columns. simpl.
  destruct (dict_get (tensor_columns s) k) eqn:Ht.
  { intros _. simpl. rewrite dict_get_set_eq by (rewrite Ht; eauto). reflexivity. }
  destruct (dict_get (doc_columns s) k) eqn:Hd.
  { intros _. simpl. rewrite Ht, dict_get_set_eq by (rewrite Hd; eauto). reflexivity. }
  destruct (dict_get (da_columns s) k) eqn:Ha.
  { intros _. simpl. rewrite Ht, Hd, dict_get_set_eq by (rewrite Ha; eauto).
    reflexivity. }
  destruct (dict_get (any_columns s) k) eqn:Hy; [|discriminate].
  intros _. simpl. rewrite Ht, Hd, Ha, dict_get_set_eq by (rewrite Hy; eauto).
  reflexivity.
Qed.

Lemma write_column_group_ne (s : @ColumnStorage Value) k k' c' :
  k ≠ k' →
  Forall2 (λ d d' : dict, dict_get d' k' = dict_get d k')
    (columns s) (columns (write_column s k c')).
Proof.
  intros Hne. unfold write_column, columns.
  destruct (dict_get (tensor_columns s) k); [|
    destruct (dict_get (doc_columns s) k); [|
      destruct (dict_get (da_columns s) k)]]; simpl;
  repeat constructor; rewrite ?dict_get_set_ne by assumption; reflexivity.
Qed.

Lemma ChainMap_getitem_write_ne (s : @ColumnStorage Value) k k' c' :
  k ≠ k' →
  ChainMap_getitem (columns (write_column s k c')) k' =
  ChainMap_getitem (columns s) k'.
Proof.
  intros Hne. pose proof (write_column_group_ne s k k' c' Hne) as HF.
  induction HF as [|d d' ds ds' Hd _ IH]; simpl; [reflexivity|].
  rewrite Hd, IH. reflexivity.
Qed.

Lemma dict_keys_set (d : dict) k c :
  dict_keys (dict_set d k c) = dict_keys d.
Proof.
  unfold dict_keys. induction d as [|[k0 c0] d IH]; simpl; [reflexivity|].
  destruct (decide (k0 = k)); rewrite !fmap_cons; simpl; [reflexivity|].
  f_equal. exact IH.
Qed.

Lemma cell_set_frame (d : dict) k c pi x k' p :
  dict_get d k = Some c → k' ≠ k ∨ p ≠ pi →
  cell (dict_set d k (<[pi := x]> c)) k' p = cell d k' p.
Proof.
  intros Hget Hor. unfold cell.
  destruct (decide (k = k')) as [<-|Hne].
  - rewrite dict_get_set_eq by (rewrite Hget; eauto). rewrite Hget. simpl.
    apply list_lookup_insert_ne. destruct Hor; congruence.
  - rewrite dict_get_set_ne by assumption. reflexivity.
Qed.

(** A write changes one cell of the group that holds the key and nothing
    else in any group. *)
Lemma write_column_frame (s : @ColumnStorage Value) k c pi x :
  ChainMap_getitem (columns s) k = Ok c →
  Forall2 (λ d d' : dict, dict_keys d' = dict_keys d ∧
             ∀ k' p, k' ≠ k ∨ p ≠ pi → cell d' k' p = cell d k' p)
    (columns s) (columns (write_column s k (<[pi := x]> c))).
Proof.
  unfold write_column, columns. simpl.
  destruct (dict_get (tensor_columns s) k) eqn:Ht.
  { intros [= ->]. repeat constructor; simpl; intros; auto using dict_keys_set, cell_set_frame. }
  destruct (dict_get (doc_columns s) k) eqn:Hd.
  { intros [= ->]. repeat constructor; simpl; intros; auto using dict_keys_set, cell_set_frame. }
  destruct (dict_get (da_columns s) k) eqn:Ha.
  { intros [= ->]. repeat constructor; simpl; intros; auto using dict_keys_set, cell_set_frame. }
  destruct (dict_get (any_columns s) k) eqn:Hy; [|discriminate].
  intros [= ->]. repeat constructor; simpl; intros; auto using dict_keys_set, cell_set_frame.
Qed.

(** ** Views: what a read and a write compute *)

Lemma view_getitem_eq (h : heap) (v : @ColumnStorageView Value) s k :
  h !! storage v = Some s →
  view_getitem v k h =
  (result_bind (ChainMap_getitem (columns s) k) (λ col, col_get col (index v)), h).
Proof.
  intros Hs. unfold view_getitem, bind, load, lift. rewrite Hs.
  destruct (ChainMap_getitem (columns s) k); reflexivity.
Qed.

Lemma view_setitem_eq (h : heap) (v : @ColumnStorageView Value) s k x :
  h !! storage v = Some s →
  view_setitem v k x h =
  match ChainMap_getitem (columns s) k with
  | Raise e => (Raise e, h)
  | Ok col =>
      match col_set col (index v) x with
      | Raise e => (Raise e, h)
      | Ok col' => (Ok (), <[storage v := write_column s k col']> h)
      end
  end.
Proof.
  intros Hs. unfold view_setitem, bind, load, lift, store. rewrite Hs.
  destruct (ChainMap_getitem (columns s) k) as [col|]; [|reflexivity].
  destruct (col_set col (index v) x); reflexivity.
Qed.

Lemma I1_column_length (s : @ColumnStorage Value) n k c :
  I1 s n → ChainMap_getitem (columns s) k = Ok c → length c = n.
Proof.
  intros HI. rewrite ChainMap_getitem_columns.
  destruct (dict_get (all_columns s) k) as [c'|] eqn:Hget; [|discriminate].
  intros [= ->]. apply dict_get_Some_elem in Hget.
  unfold I1 in HI. rewrite Forall_forall in HI. exact (HI _ Hget).
Qed.

Lemma absent_all_columns (s : @ColumnStorage Value) k :
  absent s k ↔ dict_get (all_columns s) k = None.
Proof.
  rewrite dict_get_None. unfold absent, all_columns, dict_keys.
  rewrite !fmap_app, !not_elem_of_app. tauto.
Qed.

Lemma col_get_not_KeyError (c : column) i e :
  col_get c i = Raise e → is_IndexError e.
Proof.
  unfold col_get. destruct (_ ≫= _); [discriminate|]. intros [= <-]. exact I.
Qed.

Lemma col_set_not_KeyError (c : column) i x e :
  col_set c i x = Raise e → is_IndexError e.
Proof.
  unfold col_set. destruct (position _ _); [discriminate|]. intros [= <-]. exact I.
Qed.

(** ** The storage's length *)

(** C4: the length of a storage that has an [any_columns['id']] column is
    the length of that column; asking for it changes nothing. *)
Theorem C4_len_is_id_column_length (h : heap) (self : loc) s c :
  h !! self = Some s →
  dict_get (any_columns s) "id" = Some c →
  ColumnStorage_len self h = (Ok (length c), h).
Proof.
  intros Hs Hid. unfold ColumnStorage_len, bind, load. rewrite Hs, Hid.
  reflexivity.
Qed.

(** ** Views *)

(** C3: on a storage whose columns all have the row count [n] (I1; by I3
    this is the length of the [id] column), a write of [x] under a present
    key [k] through a view bound to a row [0 ≤ i < n] succeeds; afterwards
    the same view reads [x] under [k], and so does a view newly made for
    the same storage and row. *)
Theorem C3_view_set_then_get (h : heap) (v : @ColumnStorageView Value) s n k x :
  h !! storage v = Some s →
  I1 s n →
  (0 ≤ index v < n)%Z →
  k ∈ dict_keys (all_columns s) →
  ∃ h', view_setitem v k x h = (Ok (), h') ∧
        view_getitem v k h' = (Ok x, h') ∧
        view_getitem (ColumnStorageView_init (index v) (storage v)) k h'
          = (Ok x, h').
Proof.
  intros Hs HI1 Hi Hk.
  destruct (dict_get (all_columns s) k) as [c|] eqn:Hget;
    [|apply dict_get_None in Hget; contradiction].
  assert (Hcm : ChainMap_getitem (columns s) k = Ok c)
    by (rewrite ChainMap_getitem_columns, Hget; reflexivity).
  pose proof (I1_column_length _ _ _ _ HI1 Hcm) as Hlen.
  assert (Hset : col_set c (index v) x = Ok (<[Z.to_nat (index v) := x]> c))
    by (apply col_set_ok; lia).
  eexists. rewrite (view_setitem_eq h v s k x Hs), Hcm, Hset.
  split; [reflexivity|].
  assert (Hread : ∀ w : @ColumnStorageView Value,
             storage w = storage v → index w = index v →
             view_getitem w k (<[storage v := write_column s k
                                   (<[Z.to_nat (index v) := x]> c)]> h)
             = (Ok x, <[storage v := write_column s k
                          (<[Z.to_nat (index v) := x]> c)]> h)).
  { intros w Hw Hwi.
    rewrite (view_getitem_eq _ w (write_column s k (<[Z.to_nat (index v) := x]> c)))
      by (rewrite Hw; apply lookup_insert_eq).
    rewrite (ChainMap_getitem_write_eq _ _ _ _ Hcm). simpl.
    rewrite Hwi, (col_get_set_eq _ _ _ _ Hset). reflexivity. }
  split; apply Hread; reflexivity.
Qed.

(** What a write through one view, whatever its outcome, means for a
    second view of the same storage and for the cells of the storage. Rows
    are counted from 0. *)
Lemma view_setitem_frame (h h' : heap) (v1 v2 : @ColumnStorageView Value)
    s k x r :
  storage v1 = storage v2 →
  h !! storage v1 = Some s →
  view_setitem v1 k x h = (r, h') →
  (index v1 = index v2 → r = Ok () → view_getitem v2 k h' = (Ok x, h')) ∧
  ((0 ≤ index v1)%Z → (0 ≤ index v2)%Z → index v1 ≠ index v2 →
   ∀ k', (view_getitem v2 k' h').1 = (view_getitem v2 k' h).1) ∧
  ((0 ≤ index v1)%Z →
   ∃ s', h' = <[storage v1 := s']> h ∧
     Forall2 (λ d d' : dict, dict_keys d' = dict_keys d ∧
                ∀ k' p, k' ≠ k ∨ p ≠ Z.to_nat (index v1) →
                        cell d' k' p = cell d k' p)
       (columns s) (columns s')).
Proof.
  intros Hst Hs. rewrite (view_setitem_eq h v1 s k x Hs).
  assert (Hframe0 : Forall2 (λ d d' : dict, dict_keys d' = dict_keys d ∧
             ∀ k' p, k' ≠ k ∨ p ≠ Z.to_nat (index v1) →
                     cell d' k' p = cell d k' p) (columns s) (columns s)).
  { unfold columns. repeat constructor. }
  destruct (ChainMap_getitem (columns s) k) as [c|e] eqn:Hcm.
  2:{ intros [= <- <-]. split; [discriminate|]. split; [reflexivity|].
      intros _. exists s. rewrite insert_id by assumption. auto. }
  destruct (col_set c (index v1) x) as [c'|e] eqn:Hset.
  2:{ intros [= <- <-]. split; [discriminate|]. split; [reflexivity|].
      intros _. exists s. rewrite insert_id by assumption. auto. }
  intros [= <- <-].
  assert (Hs' : <[storage v1 := write_column s k c']> h !! storage v2
                = Some (write_column s k c'))
    by (rewrite <- Hst; apply lookup_insert_eq).
  split; [|split].
  - intros Hidx _. rewrite (view_getitem_eq _ v2 _ k Hs').
    rewrite (ChainMap_getitem_write_eq _ _ _ _ Hcm). simpl.
    rewrite <- Hidx, (col_get_set_eq _ _ _ _ Hset). reflexivity.
  - intros H1 H2 Hne k'.
    rewrite (view_getitem_eq _ v2 _ k' Hs').
    rewrite (view_getitem_eq h v2 s k') by (rewrite <- Hst; assumption).
    cbn [fst]. destruct (decide (k = k')) as [<-|Hk].
    + rewrite (ChainMap_getitem_write_eq _ _ _ _ Hcm), Hcm. simpl.
      apply (col_get_set_ne _ _ _ _ _ H1 H2 Hne Hset).
    + rewrite ChainMap_getitem_write_ne by assumption. reflexivity.
  - intros H1. exists (write_column s k c'). split; [reflexivity|].
    unfold col_set in Hset. rewrite position_front in Hset by assumption.
    case_bool_decide; [|discriminate]. injection Hset as <-.
    apply write_column_frame, Hcm.
Qed.

(** C6: on a storage whose columns all have the row count [n], take two
    views of it bound to rows in [0, n) and a present key [k]. A write of
    [x] under [k] through the first view succeeds and replaces the storage
    at its place in the heap. If the second view is bound to the same row
    it then reads [x] under [k]; if it is bound to another row it reads
    under every key what it read before the write. The write leaves the
    keys of every group, and every cell of every group other than
    (row, key), as they were. *)
Theorem C6_views_share_by_index (h : heap) (v1 v2 : @ColumnStorageView Value)
    s n k x :
  storage v1 = storage v2 →
  h !! storage v1 = Some s →
  I1 s n →
  (0 ≤ index v1 < n)%Z →
  (0 ≤ index v2 < n)%Z →
  k ∈ dict_keys (all_columns s) →
  ∃ h' s',
    view_setitem v1 k x h = (Ok (), h') ∧
    h' = <[storage v1 := s']> h ∧
    (index v1 = index v2 → view_getitem v2 k h' = (Ok x, h')) ∧
    (index v1 ≠ index v2 →
     ∀ k', (view_getitem v2 k' h').1 = (view_getitem v2 k' h).1) ∧
    Forall2 (λ d d' : dict, dict_keys d' = dict_keys d ∧
               ∀ k' p, k' ≠ k ∨ p ≠ Z.to_nat (index v1) →
                       cell d' k' p = cell d k' p)
      (columns s) (columns s').
Proof.
  intros Hst Hs HI1 Hi1 Hi2 Hk.
  destruct (dict_get (all_columns s) k) as [c|] eqn:Hget;
    [|apply dict_get_None in Hget; contradiction].
  assert (Hcm : ChainMap_getitem (columns s) k = Ok c)
    by (rewrite ChainMap_getitem_columns, Hget; reflexivity).
  pose proof (I1_column_length _ _ _ _ HI1 Hcm) as Hlen.
  assert (Hset : col_set c (index v1) x = Ok (<[Z.to_nat (index v1) := x]> c))
    by (apply col_set_ok; lia).
  pose proof (view_setitem_eq h v1 s k x Hs) as Hw. rewrite Hcm, Hset in Hw.
  destruct (view_setitem_frame h _ v1 v2 s k x _ Hst Hs Hw)
    as (Hsame & Hdiff & Hcells).
  destruct Hcells as (s' & Hh' & HF); [lia|].
  eexists _, s'. split; [exact Hw|]. split; [exact Hh'|].
  split; [|split].
  - intros Hidx. apply Hsame; [exact Hidx | reflexivity].
  - intros Hne. apply Hdiff; [lia | lia | exact Hne].
  - exact HF.
Qed.

(** C7: a read through a view is the cell at the view's row of the column
    the key resolves to in the storage as it is at the time of the read;
    a read fails with a [KeyError] exactly when the key is in none of the
    four groups, and so does a write. *)
Theorem C7_view_lookup_and_KeyError (h : heap) (v : @ColumnStorageView Value) s k :
  h !! storage v = Some s →
  view_getitem v k h =
    (result_bind (ChainMap_getitem (columns s) k)
       (λ col, col_get col (index v)), h) ∧
  ((∃ e, (view_getitem v k h).1 = Raise e ∧ is_KeyError e) ↔ absent s k) ∧
  (∀ x, (∃ e, (view_setitem v k x h).1 = Raise e ∧ is_KeyError e) ↔ absent s k).
Proof.
  intros Hs. split; [apply view_getitem_eq, Hs|].
  split; [|intros x]; rewrite absent_all_columns.
  - rewrite (view_getitem_eq h v s k Hs), ChainMap_getitem_columns. simpl.
    destruct (dict_get (all_columns s) k) as [c|]; simpl.
    + split; [|intros Hx; discriminate Hx]. intros (e & He & HK).
      apply col_get_not_KeyError in He. destruct e; contradiction.
    + split; [reflexivity|]. intros _. exists (KeyError k). split; [reflexivity|exact I].
  - rewrite (view_setitem_eq h v s k x Hs), ChainMap_getitem_columns.
    destruct (dict_get (all_columns s) k) as [c|]; simpl.
    + split; [|intros Hx; discriminate Hx]. intros (e & He & HK).
      destruct (col_set c (index v) x) eqn:Hset; simpl in He; [discriminate|].
      injection He as ->. apply col_set_not_KeyError in Hset.
      destruct e; contradiction.
    + split; [reflexivity|]. intros _. exists (KeyError k). split; [reflexivity|exact I].
Qed.

(** C8: deleting through a view fails with a [RuntimeError] for every
    view, key and heap, and the heap is left as it was. *)
Theorem C8_view_delete_always_fails (h : heap) (v : @ColumnStorageView Value) key :
  ∃ e, view_delitem v key h = (Raise e, h) ∧ is_RuntimeError e.
Proof.
  eexists. split; [reflexivity | exact I].
Qed.

(** C10: the dictionary a view inherits is empty, so under the inherited
    equality any two views are equal, whatever storages and rows they are
    bound to, and every view equals the empty dictionary. *)
Theorem C10_views_compare_as_empty_dicts `{EqDecision Value}
    (i1 i2 : Z) (l1 l2 : loc) :
  dict_items (ColumnStorageView_init (Value := Value) i1 l1) = [] ∧
  view_eq (Value := Value)
    (ColumnStorageView_init i1 l1) (ColumnStorageView_init i2 l2) = true ∧
  dict_eq (Value := Value) (dict_items (ColumnStorageView_init i1 l1)) [] = true.
Proof.
  repeat split.
Qed.

(** ** Indexing one column *)

Lemma slice_positions_lt (n : nat) sl ps :
  slice_positions n sl = Ok ps → Forall (λ p, p < n) ps.
Proof.
  unfold slice_positions. repeat case_bool_decide; [discriminate| |];
    intros [= <-]; apply Forall_forall; intros p Hp;
    apply list_elem_of_filter in Hp as [_ Hp];
    rewrite ?elem_of_reverse in Hp; apply elem_of_seq in Hp; lia.
Qed.

Lemma omap_lookup_length (c : column) (ps : list nat) :
  Forall (λ p, p < length c) ps → length (omap (c !!.) ps) = length ps.
Proof.
  induction 1 as [|p ps Hp _ IH]; [reflexivity|]. simpl.
  destruct (lookup_lt_is_Some_2 c p Hp) as [x Hx]. rewrite Hx. simpl.
  f_equal. exact IH.
Qed.

Lemma col_get_position (c : column) (i : Z) :
  match position (length c) i with
  | Some p => ∃ x, c !! p = Some x ∧ col_get c i = Ok x
  | None => col_get c i = Raise (IndexError "index out of range")
  end.
Proof.
  unfold col_get. destruct (position (length c) i) as [p|] eqn:Hp; [|reflexivity].
  destruct (lookup_lt_is_Some_2 c p (position_lt _ _ _ Hp)) as [x Hx].
  exists x. simpl. rewrite Hx. auto.
Qed.

Lemma col_gather_shape (c : column) (l : list Z) :
  match col_gather c l with
  | Ok r => forallb (λ i, bool_decide (is_Some (position (length c) i))) l = true
            ∧ length r = length l
  | Raise e => forallb (λ i, bool_decide (is_Some (position (length c) i))) l = false
               ∧ e = IndexError "index out of range"
  end.
Proof.
  induction l as [|i l IH]; simpl; [auto|].
  pose proof (col_get_position c i) as Hi.
  destruct (position (length c) i) as [p|].
  - destruct Hi as (x & _ & ->). simpl.
    destruct (col_gather c l); simpl; [|exact IH].
    destruct IH as [-> ->]. auto.
  - rewrite Hi. simpl. auto.
Qed.

Lemma mask_select_length (m : list bool) (c : column) :
  length m = length c →
  length (mask_select m c) = length (filter (λ b, b = true) m).
Proof.
  revert c. induction m as [|b m IH]; intros [|x c]; simpl; try discriminate;
    [reflexivity|].
  intros [= Hlen]. destruct b.
  - rewrite filter_cons_True by reflexivity. simpl. rewrite IH by assumption.
    reflexivity.
  - rewrite filter_cons_False by discriminate. apply IH, Hlen.
Qed.

(** Whether a column accepts an index expression, and how many rows the
    answer has, depends on the length of the column alone. *)
Lemma col_getitem_shape (c : column) (item : Item) :
  match col_getitem c item with
  | Ok r => rows_selected (length c) item = Ok (length r)
  | Raise e => rows_selected (length c) item = Raise e
  end.
Proof.
  destruct item as [sl|[l|m]|q|]; simpl; try reflexivity.
  - destruct (slice_positions (length c) sl) as [ps|e] eqn:Hps; simpl; [|reflexivity].
    rewrite omap_lookup_length by (eapply slice_positions_lt; eassumption).
    reflexivity.
  - pose proof (col_gather_shape c l) as H.
    destruct (col_gather c l); destruct H as [-> ->]; reflexivity.
  - case_bool_decide; [|reflexivity].
    rewrite mask_select_length by assumption. reflexivity.
Qed.

(** The slice [slice(None)] selects every row, in order. *)
Lemma slice_positions_all (n : nat) : slice_positions n slice_all = Ok (seq 0 n).
Proof.
  unfold slice_positions, slice_all. simpl. f_equal.
  assert (Hall : ∀ (P : nat → Prop) `{∀ p, Decision (P p)} (l : list nat),
            Forall P l → filter P l = l).
  { intros P ? l. induction 1 as [|p l Hp _ IH]; [reflexivity|].
    rewrite filter_cons_True by assumption. f_equal. exact IH. }
  apply Hall, Forall_forall. intros p Hp. apply elem_of_seq in Hp.
  rewrite Z.mod_1_r. lia.
Qed.

Lemma omap_lookup_seq (c0 c : column) :
  omap ((c0 ++ c) !!.) (seq (length c0) (length c)) = c.
Proof.
  revert c0. induction c as [|x c IH]; intros c0; [reflexivity|].
  simpl. rewrite list_lookup_middle by reflexivity. simpl. f_equal.
  specialize (IH (c0 ++ [x])).
  rewrite <- app_assoc, length_app in IH. simpl in IH.
  rewrite Nat.add_1_r in IH. exact IH.
Qed.

Lemma col_getitem_slice_all (c : column) : col_getitem c (ISlice slice_all) = Ok c.
Proof.
  unfold col_getitem. rewrite slice_positions_all. simpl. f_equal.
  exact (omap_lookup_seq [] c).
Qed.

Lemma accepted_rows_selected (n : nat) (item : Item) :
  accepted n item → ∃ n', rows_selected n (normalize_item item) = Ok n'.
Proof.
  assert (Hints : ∀ l, Forall (λ i, (- n ≤ i < n)%Z) l →
            forallb (λ i, bool_decide (is_Some (position n i))) l = true).
  { induction 1 as [|i l Hi _ IH]; [reflexivity|]. simpl. rewrite IH.
    rewrite bool_decide_true; [reflexivity|].
    unfold position. repeat case_bool_decide; eauto; lia. }
  destruct item as [sl|[l|m]|[l|m]|]; simpl; intros Hacc; try contradiction.
  - unfold slice_positions.
    rewrite bool_decide_false by (destruct (sl_step sl); simpl; congruence).
    case_bool_decide; simpl; eauto.
  - rewrite Hints by assumption. eauto.
  - rewrite bool_decide_true by assumption. eauto.
  - rewrite Hints by assumption. eauto.
  - rewrite bool_decide_true by assumption. eauto.
Qed.

Lemma rejected_rows_selected (n : nat) (item : Item) :
  rejected n item →
  ∃ msg, rows_selected n (normalize_item item) = Raise (IndexError msg).
Proof.
  assert (Hints : ∀ l, Exists (λ i, (n ≤ i ∨ i < - n)%Z) l →
            forallb (λ i, bool_decide (is_Some (position n i))) l = false).
  { induction 1 as [i l Hi|i l _ IH]; simpl.
    - rewrite bool_decide_false; [reflexivity|].
      unfold position. repeat case_bool_decide; try lia. intros [? [=]].
    - rewrite IH. apply andb_false_r. }
  destruct item as [sl|[l|m]|[l|m]|]; simpl; intros Hrej; try contradiction.
  - rewrite Hints by assumption. eauto.
  - rewrite bool_decide_false by assumption. eauto.
  - rewrite Hints by assumption. eauto.
  - rewrite bool_decide_false by assumption. eauto.
  - eauto.
Qed.

(** Apart from a slice of step 0, a column refuses an index expression
    with an [IndexError] only. *)
Lemma rejected_raises_IndexError (n : nat) (c : column) (item : Item) e :
  rejected n item → col_getitem c (normalize_item item) = Raise e →
  is_IndexError e.
Proof.
  destruct item as [sl|[l|m]|[l|m]|]; simpl; intros Hrej; try contradiction.
  - pose proof (col_gather_shape c l) as H.
    destruct (col_gather c l); [discriminate|]. destruct H as [_ ->].
    intros [= <-]. exact I.
  - case_bool_decide; [discriminate|]. intros [= <-]. exact I.
  - pose proof (col_gather_shape c l) as H.
    destruct (col_gather c l); [discriminate|]. destruct H as [_ ->].
    intros [= <-]. exact I.
  - case_bool_decide; [discriminate|]. intros [= <-]. exact I.
  - intros [= <-]. exact I.
Qed.

(** ** Indexing a group of columns *)

Lemma dict_comp_Ok (f : column → result column) (d d' : dict) :
  dict_comp f d = Ok d' ↔
  Forall2 (λ kc kc', kc'.1 = kc.1 ∧ f kc.2 = Ok kc'.2) d d'.
Proof.
  revert d'. induction d as [|[k c] d IH]; intros d'; simpl.
  - split; [intros [= <-]; constructor | intros H; inversion H; reflexivity].
  - destruct (f c) as [c'|e] eqn:Hf; simpl.
    + destruct (dict_comp f d) as [r|e] eqn:Hr; simpl.
      * split.
        -- intros [= <-]. constructor; [simpl; auto|]. apply IH. reflexivity.
        -- intros H. inversion H as [|? [k2 c2] ? d2 [Hk Hc] Hrest]; subst.
           simpl in *. subst. apply IH in Hrest. congruence.
      * split; [discriminate|].
        intros H. inversion H as [|? ? ? d2 _ Hrest]; subst.
        apply IH in Hrest. discriminate.
    + split; [discriminate|].
      intros H. inversion H as [|? ? ? ? [_ Hc] _]; subst. simpl in Hc. congruence.
Qed.

Lemma dict_comp_Raise (f : column → result column) (d : dict) e :
  dict_comp f d = Raise e → ∃ k c, (k, c) ∈ d ∧ f c = Raise e.
Proof.
  induction d as [|[k c] d IH]; simpl; [discriminate|].
  destruct (f c) as [c'|e'] eqn:Hf; simpl.
  - destruct (dict_comp f d) as [r|e'']; simpl; [discriminate|].
    intros [= ->]. destruct IH as (k2 & c2 & Hin & Hc); [reflexivity|].
    exists k2, c2. split; [apply list_elem_of_further, Hin | exact Hc].
  - intros [= ->]. exists k, c. split; [apply list_elem_of_here | exact Hf].
Qed.

Lemma dict_comp_total (f : column → result column) (d : dict) :
  Forall (λ kc, ∃ c', f kc.2 = Ok c') d → ∃ d', dict_comp f d = Ok d'.
Proof.
  induction 1 as [|[k c] d [c' Hc] _ [r IH]]; simpl; [eauto|].
  simpl in Hc. rewrite Hc, IH. simpl. eauto.
Qed.

Lemma dict_comp_map (f : column → result column) (g : column → column)
    (d : dict) :
  Forall (λ kc, f kc.2 = Ok (g kc.2)) d →
  dict_comp f d = Ok (prod_map id g <$> d).
Proof.
  induction 1 as [|[k c] d Hc _ IH]; simpl; [reflexivity|].
  simpl in Hc. rewrite Hc, IH. reflexivity.
Qed.

Lemma dict_comp_applied (item : Item) (d d' : dict) :
  dict_comp (λ col, col_getitem col item) d = Ok d' ↔ applied item d d'.
Proof. apply (dict_comp_Ok (λ col, col_getitem col item)). Qed.

Lemma applied_keys (item : Item) (d d' : dict) :
  applied item d d' → dict_keys d' = dict_keys d.
Proof.
  unfold dict_keys. induction 1 as [|kc kc' d d' [Hk _] _ IH]; [reflexivity|].
  rewrite !fmap_cons, Hk. f_equal. exact IH.
Qed.

Lemma applied_dict_get (item : Item) (d d' : dict) k c :
  applied item d d' → dict_get d k = Some c →
  ∃ c', dict_get d' k = Some c' ∧ col_getitem c item = Ok c'.
Proof.
  induction 1 as [|[k1 c1] [k2 c2] d d' [Hk Hc] _ IH]; simpl; [discriminate|].
  simpl in Hk, Hc. subst k2. destruct (decide (k1 = k)); [|exact IH].
  intros [= <-]. eauto.
Qed.

Lemma applied_lengths (item : Item) (d d' : dict) (n n' : nat) :
  applied item d d' → rows_selected n item = Ok n' →
  Forall (λ kc, length kc.2 = n) d → Forall (λ kc, length kc.2 = n') d'.
Proof.
  intros Happ Hsel. induction Happ as [|kc kc' d d' [_ Hc] _ IH];
    intros Hlen; [constructor|].
  inversion Hlen as [|? ? Hn Hrest]; subst. constructor; [|exact (IH Hrest)].
  pose proof (col_getitem_shape kc.2 item) as Hshape.
  rewrite Hc, Hsel in Hshape. congruence.
Qed.

(** ** Indexing a storage *)

Lemma ColumnStorage_getitem_eq (h : heap) (self : loc) s item :
  h !! self = Some s →
  ColumnStorage_getitem self item h =
  match index_storage s item with
  | Ok s' => (Ok (fresh (dom h)), <[fresh (dom h) := s']> h)
  | Raise e => (Raise e, h)
  end.
Proof.
  intros Hs. unfold ColumnStorage_getitem, index_storage, bind, load, lift, alloc.
  rewrite Hs.
  destruct (dict_comp _ (tensor_columns s)); [|reflexivity].
  destruct (dict_comp _ (doc_columns s)); [|reflexivity].
  destruct (dict_comp _ (da_columns s)); [|reflexivity].
  destruct (dict_comp _ (any_columns s)); reflexivity.
Qed.

Lemma index_storage_Ok (s s' : @ColumnStorage Value) (item : Item) :
  index_storage s item = Ok s' ↔
  applied (normalize_item item) (tensor_columns s) (tensor_columns s') ∧
  applied (normalize_item item) (doc_columns s) (doc_columns s') ∧
  applied (normalize_item item) (da_columns s) (da_columns s') ∧
  applied (normalize_item item) (any_columns s) (any_columns s') ∧
  document_type s' = document_type s ∧ tensor_type s' = tensor_type s.
Proof.
  unfold index_storage. split.
  - destruct (dict_comp _ (tensor_columns s)) as [tc|] eqn:Ht; [|discriminate].
    destruct (dict_comp _ (doc_columns s)) as [dc|] eqn:Hd; [|discriminate].
    destruct (dict_comp _ (da_columns s)) as [ac|] eqn:Ha; [|discriminate].
    destruct (dict_comp _ (any_columns s)) as [yc|] eqn:Hy; [|discriminate].
    intros [= <-]. simpl. rewrite <- !dict_comp_applied. repeat split; assumption.
  - destruct s' as [tc dc ac yc dt tt]. simpl.
    rewrite <- !dict_comp_applied. intros (-> & -> & -> & -> & -> & ->). reflexivity.
Qed.

Lemma index_storage_Raise (s : @ColumnStorage Value) (item : Item) e :
  index_storage s item = Raise e →
  ∃ k c, (k, c) ∈ all_columns s ∧ col_getitem c (normalize_item item) = Raise e.
Proof.
  unfold index_storage, all_columns.
  destruct (dict_comp _ (tensor_columns s)) as [tc|] eqn:Ht.
  2:{ intros [= <-]. apply dict_comp_Raise in Ht as (k & c & Hin & Hc).
      exists k, c. rewrite !elem_of_app. auto. }
  destruct (dict_comp _ (doc_columns s)) as [dc|] eqn:Hd.
  2:{ intros [= <-]. apply dict_comp_Raise in Hd as (k & c & Hin & Hc).
      exists k, c. rewrite !elem_of_app. auto. }
  destruct (dict_comp _ (da_columns s)) as [ac|] eqn:Ha.
  2:{ intros [= <-]. apply dict_comp_Raise in Ha as (k & c & Hin & Hc).
      exists k, c. rewrite !elem_of_app. auto. }
  destruct (dict_comp _ (any_columns s)) as [yc|] eqn:Hy; [discriminate|].
  intros [= <-]. apply dict_comp_Raise in Hy as (k & c & Hin & Hc).
  exists k, c. rewrite !elem_of_app. auto.
Qed.

Lemma fresh_loc_unused (h : heap) : h !! fresh (dom h) = None.
Proof. apply not_elem_of_dom, is_fresh. Qed.

Lemma dict_keys_all_columns (s : @ColumnStorage Value) :
  dict_keys (all_columns s) =
  dict_keys (tensor_columns s) ++ dict_keys (doc_columns s) ++
  dict_keys (da_columns s) ++ dict_keys (any_columns s).
Proof. unfold all_columns, dict_keys. rewrite !fmap_app. reflexivity. Qed.

(** C1: on a storage that satisfies I1 to I3 with [n] rows, indexing by an
    accepted expression (a tuple being read as a list) returns a new
    storage in which every group is the old group with that expression
    applied to each column on its own, with the document type and tensor
    type of the old storage; the new storage satisfies I1 to I3 again,
    with some row count [n']. *)
Theorem C1_getitem_preserves_invariants (h : heap) (self : loc) s n item :
  h !! self = Some s → wf s n → accepted n item →
  ∃ n' s',
    ColumnStorage_getitem self item h
      = (Ok (fresh (dom h)), <[fresh (dom h) := s']> h) ∧
    h !! fresh (dom h) = None ∧
    applied (normalize_item item) (tensor_columns s) (tensor_columns s') ∧
    applied (normalize_item item) (doc_columns s) (doc_columns s') ∧
    applied (normalize_item item) (da_columns s) (da_columns s') ∧
    applied (normalize_item item) (any_columns s) (any_columns s') ∧
    document_type s' = document_type s ∧ tensor_type s' = tensor_type s ∧
    wf s' n'.
Proof.
  intros Hs (HI1 & HI2 & c & Hid & Hlen) Hacc.
  destruct (accepted_rows_selected n item Hacc) as [n' Hsel].
  destruct (index_storage s item) as [s'|e] eqn:Hidx.
  2:{ apply index_storage_Raise in Hidx as (k & c0 & Hin & Hc).
      unfold I1 in HI1. rewrite Forall_forall in HI1. specialize (HI1 _ Hin).
      simpl in HI1. pose proof (col_getitem_shape c0 (normalize_item item)) as Hsh.
      rewrite Hc, HI1, Hsel in Hsh. discriminate. }
  exists n', s'. rewrite (ColumnStorage_getitem_eq h self s item Hs), Hidx.
  split; [reflexivity|]. split; [apply fresh_loc_unused|].
  apply index_storage_Ok in Hidx as (Ht & Hd & Ha & Hy & Hdt & Htt).
  do 6 (split; [assumption|]).
  unfold I1, all_columns in HI1. rewrite !Forall_app in HI1.
  destruct HI1 as (H1 & H2 & H3 & H4).
  split; [|split].
  - unfold I1, all_columns. rewrite !Forall_app.
    eauto 10 using applied_lengths.
  - unfold I2 in *. rewrite dict_keys_all_columns in *.
    rewrite (applied_keys _ _ _ Ht), (applied_keys _ _ _ Hd),
      (applied_keys _ _ _ Ha), (applied_keys _ _ _ Hy). exact HI2.
  - destruct (applied_dict_get _ _ _ _ _ Hy Hid) as (c' & Hid' & Hc').
    exists c'. split; [exact Hid'|].
    pose proof (col_getitem_shape c (normalize_item item)) as Hsh.
    rewrite Hc', Hlen, Hsel in Hsh. congruence.
Qed.

(** C2: on a storage whose columns all have three rows, indexing by the
    list [2, 0, 0] turns every column [A, B, C] of every group into
    [C, A, A], and indexing by the mask [True, False, True] turns every
    column [A, B, C] of every group into [A, C]. *)
Theorem C2_gather_and_mask_rows (h : heap) (self : loc) s :
  h !! self = Some s → I1 s 3 →
  ColumnStorage_getitem self (IList (IntSeq [2; 0; 0]%Z)) h
    = (Ok (fresh (dom h)), <[fresh (dom h) := map_columns rows_CAA s]> h) ∧
  ColumnStorage_getitem self (IList (BoolSeq [true; false; true])) h
    = (Ok (fresh (dom h)), <[fresh (dom h) := map_columns rows_AC s]> h).
Proof.
  intros Hs HI1. unfold I1, all_columns in HI1. rewrite !Forall_app in HI1.
  destruct HI1 as (H1 & H2 & H3 & H4).
  assert (Hg : ∀ d : dict, Forall (λ kc, length kc.2 = 3) d →
            Forall (λ kc, col_getitem kc.2 (IList (IntSeq [2; 0; 0]%Z))
                          = Ok (rows_CAA kc.2)) d).
  { intros d Hd. eapply Forall_impl; [exact Hd|].
    intros [k [|A [|B [|C [|]]]]]; try discriminate. reflexivity. }
  assert (Hm : ∀ d : dict, Forall (λ kc, length kc.2 = 3) d →
            Forall (λ kc, col_getitem kc.2 (IList (BoolSeq [true; false; true]))
                          = Ok (rows_AC kc.2)) d).
  { intros d Hd. eapply Forall_impl; [exact Hd|].
    intros [k [|A [|B [|C [|]]]]]; try discriminate. reflexivity. }
  rewrite !(ColumnStorage_getitem_eq h self s _ Hs). unfold index_storage. simpl.
  rewrite !(dict_comp_map _ rows_CAA), !(dict_comp_map _ rows_AC) by auto.
  split; reflexivity.
Qed.

(** C5, as the code has it: on a storage whose [any_columns['id']] column
    has [n] rows, indexing by an integer that denotes no row (one that is
    [n] or more among them), by a mask of another length or by an index of
    no known shape fails with an [IndexError]; whenever indexing fails,
    the exception is the one a column of the storage raised for that
    expression, as that column raised it, and the heap is as before;
    whether it fails or not, the storage indexed is as before. *)
Theorem C5_getitem_failure_and_frame (h : heap) (self : loc) s item :
  h !! self = Some s →
  (∀ n, I3 s n → rejected n item →
        ∃ e, ColumnStorage_getitem self item h = (Raise e, h) ∧ is_IndexError e) ∧
  (∀ e h', ColumnStorage_getitem self item h = (Raise e, h') →
           h' = h ∧
           ∃ k c, (k, c) ∈ all_columns s ∧
                  col_getitem c (normalize_item item) = Raise e) ∧
  (∀ r h', ColumnStorage_getitem self item h = (r, h') → h' !! self = Some s).
Proof.
  intros Hs. rewrite (ColumnStorage_getitem_eq h self s item Hs).
  split; [|split].
  - intros n (c & Hid & Hlen) Hrej.
    destruct (rejected_rows_selected n item Hrej) as [msg Hsel].
    destruct (index_storage s item) as [s'|e] eqn:Hidx.
    + apply index_storage_Ok in Hidx as (_ & _ & _ & Hy & _).
      destruct (applied_dict_get _ _ _ _ _ Hy Hid) as (c' & _ & Hc').
      pose proof (col_getitem_shape c (normalize_item item)) as Hsh.
      rewrite Hc', Hlen, Hsel in Hsh. discriminate.
    + exists e. split; [reflexivity|].
      apply index_storage_Raise in Hidx as (k & c0 & _ & Hc0).
      exact (rejected_raises_IndexError n c0 item e Hrej Hc0).
  - intros e h'. destruct (index_storage s item) as [s'|e'] eqn:Hidx;
      [discriminate|].
    intros [= <- <-]. split; [reflexivity|].
    apply index_storage_Raise, Hidx.
  - intros r h'. destruct (index_storage s item) as [s'|e']; intros [= <- <-];
      [|exact Hs].
    rewrite lookup_insert_ne; [exact Hs|].
    intros Heq. pose proof (fresh_loc_unused h) as Hf. congruence.
Qed.

(** ** Iterating a view *)

Lemma keys_update_fresh (acc ks : list string) :
  NoDup (acc ++ ks) → keys_update acc ks = acc ++ ks.
Proof.
  unfold keys_update. revert acc.
  induction ks as [|k ks IH]; intros acc Hnd; simpl.
  - rewrite app_nil_r. reflexivity.
  - assert (Hk : k ∉ acc).
    { apply NoDup_app in Hnd as (_ & Hdis & _). intros Hin.
      apply (Hdis _ Hin), list_elem_of_here. }
    rewrite decide_False by assumption.
    rewrite IH by (rewrite <- app_assoc; exact Hnd).
    rewrite <- app_assoc. reflexivity.
Qed.

Lemma blocks_reversed (a b c d : list string) :
  d ++ c ++ b ++ a ≡ₚ a ++ b ++ c ++ d.
Proof.
  rewrite (Permutation_app_comm a (b ++ c ++ d)).
  rewrite (Permutation_app_comm b (c ++ d)).
  rewrite (Permutation_app_comm c d).
  rewrite <- !app_assoc. reflexivity.
Qed.

Lemma view_iter_direct_call (v : @ColumnStorageView Value) (h : heap) :
  bind (ColumnStorageView_iter v) KeysView_iter h = view_iter v h.
Proof.
  unfold ColumnStorageView_iter, KeysView_iter, view_iter, bind, load, ret.
  destruct (h !! storage v) as [s|] eqn:Hs; simpl; [|reflexivity].
  rewrite Hs. reflexivity.
Qed.

(** The keys view a direct call of [__iter__] answers yields, on a
    storage whose field names are pairwise distinct, the field names of
    the four groups, the groups taken last to first (any, da, doc,
    tensor) and each in its insertion order; the heap is untouched. *)
Lemma keys_view_groups_last_to_first (h : heap) (v : @ColumnStorageView Value) s :
  h !! storage v = Some s → I2 s →
  bind (ColumnStorageView_iter v) KeysView_iter h =
    (Ok (dict_keys (any_columns s) ++ dict_keys (da_columns s) ++
         dict_keys (doc_columns s) ++ dict_keys (tensor_columns s)), h).
Proof.
  intros Hs HI2. unfold I2 in HI2. rewrite dict_keys_all_columns in HI2.
  assert (Hperm : NoDup (dict_keys (any_columns s) ++ dict_keys (da_columns s) ++
                         dict_keys (doc_columns s) ++ dict_keys (tensor_columns s))).
  { eapply NoDup_Permutation_proper; [|exact HI2]. apply blocks_reversed. }
  rewrite view_iter_direct_call.
  unfold view_iter, bind, load, ret. rewrite Hs.
  unfold ChainMap_keys, columns. simpl.
  rewrite !app_assoc in Hperm.
  pose proof Hperm as H3. apply NoDup_app in H3 as (H3 & _ & _).
  pose proof H3 as H2. apply NoDup_app in H2 as (H2 & _ & _).
  rewrite (keys_update_fresh [] _)
    by (simpl; apply NoDup_app in H2 as (H1 & _ & _); exact H1).
  simpl. rewrite (keys_update_fresh _ _ H2), (keys_update_fresh _ _ H3),
    (keys_update_fresh _ _ Hperm).
  rewrite <- !app_assoc. reflexivity.
Qed.

(** Iterating a view of a storage that is there fails, whatever the
    storage holds: [__iter__] answers a keys view, which is no iterator,
    so [iter(view)] raises a [TypeError]; the heap is untouched. *)
Lemma builtin_iter_raises (h : heap) (v : @ColumnStorageView Value) s :
  h !! storage v = Some s →
  builtin_iter v h =
    (Raise (TypeError "iter() returned non-iterator of type 'KeysView'"), h).
Proof.
  intros Hs. unfold builtin_iter, ColumnStorageView_iter, bind, load, ret, raise.
  rewrite Hs. reflexivity.
Qed.

End Properties.

(** * Further properties of the storage and its views *)

Section MoreProperties.

Context {Value : Type}.

Local Abbreviation column := (list Value).
Local Abbreviation dict := (list (string * column)).
Local Abbreviation loc := nat.
Local Abbreviation heap := (gmap nat (@ColumnStorage Value)).

(** ** The size of a view *)

Lemma keys_update_spec (acc ks : list string) :
  NoDup acc →
  NoDup (keys_update acc ks) ∧
  ∀ k, k ∈ keys_update acc ks ↔ k ∈ acc ∨ k ∈ ks.
Proof.
  unfold keys_update. revert acc.
  induction ks as [|k0 ks IH]; intros acc Hnd; simpl.
  - split; [exact Hnd|]. intros k. rewrite elem_of_nil. tauto.
  - destruct (decide (k0 ∈ acc)) as [Hin|Hin].
    + destruct (IH acc Hnd) as [H1 H2]. split; [exact H1|].
      intros k. rewrite H2, elem_of_cons. split; [tauto|].
      intros [?|[->|?]]; auto.
    + assert (Hnd' : NoDup (acc ++ [k0])).
      { apply NoDup_app. split; [exact Hnd|]. split; [|apply NoDup_singleton].
        intros x Hx Hx0. apply list_elem_of_singleton in Hx0. congruence. }
      destruct (IH _ Hnd') as [H1 H2]. split; [exact H1|].
      intros k. rewrite H2, elem_of_app, list_elem_of_singleton, elem_of_cons. tauto.
Qed.

Lemma ChainMap_keys_spec (maps : list dict) :
  NoDup (ChainMap_keys maps) ∧
  ∀ k, k ∈ ChainMap_keys maps ↔ ∃ m, m ∈ maps ∧ k ∈ dict_keys m.
Proof.
  unfold ChainMap_keys.
  assert (Hgen : ∀ (ms : list dict) acc, NoDup acc →
            NoDup (foldl (λ d m, keys_update d (dict_keys m)) acc ms) ∧
            ∀ k, k ∈ foldl (λ d m, keys_update d (dict_keys m)) acc ms ↔
                 k ∈ acc ∨ ∃ m, m ∈ ms ∧ k ∈ dict_keys m).
  { induction ms as [|m ms IH]; intros acc Hnd; simpl.
    - split; [exact Hnd|]. intros k. split; [auto|].
      intros [?|(m & Hm & _)]; [assumption|]. apply elem_of_nil in Hm. contradiction.
    - destruct (keys_update_spec acc (dict_keys m) Hnd) as [H1 H2].
      destruct (IH _ H1) as [H3 H4]. split; [exact H3|].
      intros k. rewrite H4, H2. split.
      + intros [[?|?]|(m' & Hm' & Hk)]; [auto| |].
        * right. exists m. split; [apply list_elem_of_here | assumption].
        * right. exists m'. split; [apply list_elem_of_further, Hm' | assumption].
      + intros [?|(m' & Hm' & Hk)]; [auto|].
        apply elem_of_cons in Hm' as [->|Hm']; [auto|].
        right. exists m'. auto. }
  destruct (Hgen (reverse maps) [] (NoDup_nil_2)) as [H1 H2].
  split; [exact H1|]. intros k. rewrite H2, elem_of_nil.
  split.
  - intros [[]|(m & Hm & Hk)]. exists m. rewrite elem_of_reverse in Hm. auto.
  - intros (m & Hm & Hk). right. exists m. rewrite elem_of_reverse. auto.
Qed.

Lemma ChainMap_len_keys (maps : list dict) :
  ChainMap_len maps = length (ChainMap_keys maps).
Proof.
  destruct (ChainMap_keys_spec maps) as [Hnd Hin].
  unfold ChainMap_len. rewrite <- (size_list_to_set (C := gset string) _ Hnd).
  f_equal. apply set_eq. intros k.
  rewrite elem_of_union_list, elem_of_list_to_set, Hin. split.
  - intros (X & HX & Hk). apply list_elem_of_fmap in HX as (m & -> & Hm).
    exists m. rewrite elem_of_list_to_set in Hk. auto.
  - intros (m & Hm & Hk). exists (list_to_set (dict_keys m)). split.
    + apply list_elem_of_fmap. exists m. auto.
    + rewrite elem_of_list_to_set. exact Hk.
Qed.

Lemma remove_dups_length_le (l : list string) :
  length (remove_dups l) ≤ length l.
Proof.
  induction l as [|k l IH]; simpl; [lia|].
  destruct (decide_rel (∈) k l); simpl; lia.
Qed.

Lemma remove_dups_length_NoDup (l : list string) :
  length (remove_dups l) = length l ↔ NoDup l.
Proof.
  induction l as [|k l IH]; simpl.
  - split; [constructor | reflexivity].
  - pose proof (remove_dups_length_le l) as Hle.
    rewrite NoDup_cons. destruct (decide_rel (∈) k l) as [Hin|Hin]; simpl.
    + split; [lia | tauto].
    + rewrite <- IH. split; [intros [= ->]; auto | intros [_ ->]; reflexivity].
Qed.

Lemma ChainMap_len_columns (s : @ColumnStorage Value) :
  ChainMap_len (columns s) = length (remove_dups (dict_keys (all_columns s))).
Proof.
  rewrite <- (size_list_to_set (C := gset string) _ (NoDup_remove_dups _)).
  unfold ChainMap_len. f_equal. apply set_eq. intros k.
  rewrite elem_of_list_to_set, elem_of_remove_dups, dict_keys_all_columns.
  unfold columns. simpl.
  rewrite !elem_of_union, !elem_of_list_to_set, !elem_of_app.
  rewrite elem_of_empty. tauto.
Qed.

(** X1: the size of a view is the number of distinct field names of the
    four groups of its storage, a name held by two groups counted once;
    it is the number of columns of the four groups together exactly when
    the field names are pairwise distinct. Asking for it changes
    nothing. *)
Theorem X1_view_len_counts_fields (h : heap) (v : @ColumnStorageView Value) s :
  h !! storage v = Some s →
  view_len v h =
    (Ok (length (remove_dups (dict_keys (all_columns s)))), h) ∧
  (I2 s ↔ view_len v h =
            (Ok (length (tensor_columns s) + length (doc_columns s) +
                 length (da_columns s) + length (any_columns s)), h)).
Proof.
  intros Hs.
  assert (Hlen : view_len v h =
            (Ok (length (remove_dups (dict_keys (all_columns s)))), h)).
  { unfold view_len, bind, load, ret. rewrite Hs, ChainMap_len_columns.
    reflexivity. }
  split; [exact Hlen|]. rewrite Hlen.
  unfold I2. rewrite <- remove_dups_length_NoDup.
  assert (Htotal : length (dict_keys (all_columns s)) =
            length (tensor_columns s) + length (doc_columns s) +
            length (da_columns s) + length (any_columns s)).
  { unfold dict_keys, all_columns. rewrite length_fmap, !length_app. lia. }
  rewrite Htotal. split; [intros ->; reflexivity | intros [= ->]; reflexivity].
Qed.

(** ** Writes through a view *)

(** X2: a write that fails leaves the heap as it was, and it fails in one
    of two ways: with [KeyError(name)] when the name is in none of the
    four groups, or with an [IndexError] when the name resolves to a
    column in which the view's index denotes no row. *)
Theorem X2_failed_write_changes_nothing (h h' : heap)
    (v : @ColumnStorageView Value) s k x e :
  h !! storage v = Some s →
  view_setitem v k x h = (Raise e, h') →
  h' = h ∧
  ((e = KeyError k ∧ absent s k) ∨
   (is_IndexError e ∧
    ∃ c, ChainMap_getitem (columns s) k = Ok c ∧
         position (length c) (index v) = None)).
Proof.
  intros Hs. rewrite (view_setitem_eq h v s k x Hs).
  rewrite absent_all_columns, ChainMap_getitem_columns.
  destruct (dict_get (all_columns s) k) as [c|].
  - unfold col_set. destruct (position (length c) (index v)) eqn:Hp;
      [discriminate|].
    intros [= <- <-]. split; [reflexivity|]. right. split; [exact I|]. eauto.
  - intros [= <- <-]. auto.
Qed.

Lemma dict_set_Forall (P : string * column → Prop) (d : dict) k c :
  Forall P d → (∀ c0, P (k, c0) → P (k, c)) → Forall P (dict_set d k c).
Proof.
  intros HF Hc. induction HF as [|[k0 c0] d H0 HF IH]; simpl; [constructor|].
  destruct (decide (k0 = k)) as [->|]; constructor; eauto.
Qed.

Lemma dict_get_set (d : dict) k k' c :
  dict_get (dict_set d k c) k' =
  if decide (k = k') then (λ _, c) <$> dict_get d k' else dict_get d k'.
Proof.
  destruct (decide (k = k')) as [<-|Hne]; [|apply dict_get_set_ne, Hne].
  destruct (dict_get d k) eqn:Hget; simpl.
  - apply dict_get_set_eq. rewrite Hget. eauto.
  - rewrite dict_set_absent by assumption. exact Hget.
Qed.

(** The groups after a write, one by one. *)
Lemma write_column_groups (s : @ColumnStorage Value) k c :
  ∃ t d a y,
    write_column s k c =
      mkColumnStorage t d a y (document_type s) (tensor_type s) ∧
    Forall2 (λ g g' : dict, g' = g ∨ g' = dict_set g k c)
      (columns s) [t; d; a; y].
Proof.
  unfold write_column, columns.
  destruct (dict_get (tensor_columns s) k); [|
    destruct (dict_get (doc_columns s) k); [|
      destruct (dict_get (da_columns s) k)]];
  do 4 eexists; (split; [reflexivity|]);
  repeat match goal with |- Forall2 _ _ _ => constructor end; auto.
Qed.

Lemma write_column_wf (s : @ColumnStorage Value) n k c :
  wf s n → length c = n → wf (write_column s k c) n.
Proof.
  intros (HI1 & HI2 & c0 & Hid & Hlen) Hc.
  destruct (write_column_groups s k c) as (t & d & a & y & -> & HF).
  unfold columns in HF.
  apply Forall2_cons in HF as [Ht HF]. apply Forall2_cons in HF as [Hd HF].
  apply Forall2_cons in HF as [Ha HF]. apply Forall2_cons in HF as [Hy _].
  unfold I1, all_columns in HI1. rewrite !Forall_app in HI1.
  destruct HI1 as (H1 & H2 & H3 & H4).
  assert (Hlens : ∀ g g' : dict, g' = g ∨ g' = dict_set g k c →
            Forall (λ kc, length kc.2 = n) g → Forall (λ kc, length kc.2 = n) g').
  { intros g g' [->| ->] Hg; [exact Hg|]. apply dict_set_Forall; auto. }
  assert (Hkeys : ∀ g g' : dict, g' = g ∨ g' = dict_set g k c →
            dict_keys g' = dict_keys g).
  { intros g g' [->| ->]; [reflexivity | apply dict_keys_set]. }
  split; [|split].
  - unfold I1, all_columns. simpl. rewrite !Forall_app. eauto 10.
  - unfold I2 in *. rewrite dict_keys_all_columns in *. simpl.
    rewrite (Hkeys _ _ Ht), (Hkeys _ _ Hd), (Hkeys _ _ Ha), (Hkeys _ _ Hy).
    exact HI2.
  - unfold I3. simpl. destruct Hy as [->| ->]; [eauto|].
    rewrite dict_get_set, Hid. destruct (decide (k = "id")); simpl; eauto.
Qed.

(** X3: a write through a view, whether it succeeds or fails, keeps the
    invariants I1 to I3 of the storage with the same row count, so the
    length of the storage is what it was. *)
Theorem X3_write_keeps_invariants (h h' : heap)
    (v : @ColumnStorageView Value) s n k x r :
  h !! storage v = Some s → wf s n →
  view_setitem v k x h = (r, h') →
  (∃ s', h' !! storage v = Some s' ∧ wf s' n) ∧
  ColumnStorage_len (storage v) h' = (Ok n, h').
Proof.
  intros Hs Hwf. rewrite (view_setitem_eq h v s k x Hs).
  assert (Hlen : ∀ (g : heap) s', g !! storage v = Some s' → wf s' n →
            ColumnStorage_len (storage v) g = (Ok n, g)).
  { intros g s' Hg (_ & _ & c & Hid & Hc).
    unfold ColumnStorage_len, bind, load, ret. rewrite Hg, Hid, Hc. reflexivity. }
  destruct (ChainMap_getitem (columns s) k) as [c|] eqn:Hcm.
  2:{ intros [= <- <-]. eauto 10. }
  destruct (col_set c (index v) x) as [c'|] eqn:Hset.
  2:{ intros [= <- <-]. eauto 10. }
  intros [= <- <-].
  assert (Hwf' : wf (write_column s k c') n).
  { apply write_column_wf; [exact Hwf|].
    rewrite (col_set_length _ _ _ _ Hset).
    destruct Hwf as (HI1 & _). exact (I1_column_length s n k c HI1 Hcm). }
  split.
  - exists (write_column s k c'). split; [apply lookup_insert_eq | exact Hwf'].
  - apply (Hlen _ (write_column s k c')); [apply lookup_insert_eq | exact Hwf'].
Qed.

Lemma dict_set_same (d : dict) k c :
  dict_get d k = Some c → dict_set d k c = d.
Proof.
  induction d as [|[k0 c0] d IH]; simpl; [reflexivity|].
  destruct (decide (k0 = k)) as [->|]; [intros [= ->]; reflexivity|].
  intros H. rewrite IH by assumption. reflexivity.
Qed.

Lemma write_column_same (s : @ColumnStorage Value) k c :
  ChainMap_getitem (columns s) k = Ok c → write_column s k c = s.
Proof.
  unfold write_column, columns. simpl. destruct s as [t d a y dt tt]. simpl.
  destruct (dict_get t k) eqn:Ht.
  { intros [= ->]. rewrite dict_set_same by assumption. reflexivity. }
  destruct (dict_get d k) eqn:Hd.
  { intros [= ->]. rewrite dict_set_same by assumption. reflexivity. }
  destruct (dict_get a k) eqn:Ha.
  { intros [= ->]. rewrite dict_set_same by assumption. reflexivity. }
  destruct (dict_get y k) eqn:Hy; [|discriminate].
  intros [= ->]. rewrite dict_set_same by assumption. reflexivity.
Qed.

(** X4: writing back the value a view has just read is a successful write
    that leaves the heap exactly as it was. *)
Theorem X4_write_back_is_noop (h h' : heap) (v : @ColumnStorageView Value) k x :
  view_getitem v k h = (Ok x, h') →
  h' = h ∧ view_setitem v k x h = (Ok (), h).
Proof.
  unfold view_getitem, view_setitem, bind, load, lift, store.
  destruct (h !! storage v) as [s|] eqn:Hs; [|discriminate].
  destruct (ChainMap_getitem (columns s) k) as [c|] eqn:Hcm; [|discriminate].
  unfold col_get, col_set.
  destruct (position (length c) (index v)) as [p|]; [|discriminate]. simpl.
  destruct (c !! p) as [x0|] eqn:Hp; [|discriminate].
  intros [= <- <-]. split; [reflexivity|].
  rewrite list_insert_id by assumption.
  rewrite (write_column_same s k c Hcm), insert_id by assumption. reflexivity.
Qed.

Lemma dict_set_set_eq (d : dict) k c1 c2 :
  dict_set (dict_set d k c1) k c2 = dict_set d k c2.
Proof.
  induction d as [|[k0 c0] d IH]; simpl; [reflexivity|].
  destruct (decide (k0 = k)) as [->|Hne]; simpl.
  - rewrite decide_True by reflexivity. reflexivity.
  - rewrite decide_False by assumption. rewrite IH. reflexivity.
Qed.

Lemma dict_set_commute (d : dict) k1 k2 c1 c2 :
  k1 ≠ k2 →
  dict_set (dict_set d k1 c1) k2 c2 = dict_set (dict_set d k2 c2) k1 c1.
Proof.
  intros Hne. induction d as [|[k0 c0] d IH]; simpl; [reflexivity|].
  destruct (decide (k0 = k1)), (decide (k0 = k2)); subst; simpl;
    repeat (case_decide; simpl); congruence.
Qed.

Ltac rewrite_dict_gets :=
  repeat match goal with
  | H : dict_get ?d ?k = _ |- context [dict_get ?d ?k] => rewrite H
  | |- context [dict_get (dict_set ?d ?k ?c) ?k] =>
      rewrite (dict_get_set_eq d k c) by eauto
  | |- context [dict_get (dict_set ?d ?k ?c) ?k'] =>
      rewrite (dict_get_set_ne d k k' c) by congruence
  end.

Lemma write_column_write_eq (s : @ColumnStorage Value) k c1 c2 :
  write_column (write_column s k c1) k c2 = write_column s k c2.
Proof.
  destruct s as [t d a y dt tt]. unfold write_column. simpl.
  destruct (dict_get t k) eqn:Ht; simpl.
  { rewrite_dict_gets. rewrite dict_set_set_eq. reflexivity. }
  destruct (dict_get d k) eqn:Hd; simpl.
  { rewrite_dict_gets. rewrite dict_set_set_eq. reflexivity. }
  destruct (dict_get a k) eqn:Ha; simpl.
  { rewrite_dict_gets. rewrite dict_set_set_eq. reflexivity. }
  rewrite_dict_gets. rewrite dict_set_set_eq. reflexivity.
Qed.

Lemma write_column_commute (s : @ColumnStorage Value) k1 k2 c1 c2 :
  k1 ≠ k2 →
  write_column (write_column s k1 c1) k2 c2 =
  write_column (write_column s k2 c2) k1 c1.
Proof.
  intros Hne. destruct s as [t d a y dt tt]. unfold write_column. simpl.
  destruct (dict_get t k1) eqn:Ht1; [|destruct (dict_get d k1) eqn:Hd1;
    [|destruct (dict_get a k1) eqn:Ha1]];
  (destruct (dict_get t k2) eqn:Ht2; [|destruct (dict_get d k2) eqn:Hd2;
    [|destruct (dict_get a k2) eqn:Ha2]]);
  simpl; rewrite_dict_gets; simpl; rewrite_dict_gets;
  rewrite ?(dict_set_commute _ k1 k2) by assumption; reflexivity.
Qed.

Lemma view_setitem_dangling (h : heap) (v : @ColumnStorageView Value) k x :
  h !! storage v = None →
  view_setitem v k x h = (Raise (SystemError "dangling reference"), h).
Proof.
  intros Hs. unfold view_setitem, bind, load. rewrite Hs. reflexivity.
Qed.

(** X5: of two successive writes through a view under the same name, the
    last one wins: after a successful write of [x], writing [y] gives the
    outcome and the heap that writing [y] alone would have given. *)
Theorem X5_last_write_wins (h h1 : heap) (v : @ColumnStorageView Value) k x y :
  view_setitem v k x h = (Ok (), h1) →
  view_setitem v k y h1 = view_setitem v k y h.
Proof.
  unfold view_setitem, bind, load, lift, store.
  destruct (h !! storage v) as [s|] eqn:Hs; [|discriminate].
  destruct (ChainMap_getitem (columns s) k) as [c|] eqn:Hcm; [|discriminate].
  unfold col_set.
  destruct (position (length c) (index v)) as [p|] eqn:Hp; [|discriminate].
  intros [= <-]. rewrite lookup_insert_eq.
  rewrite (ChainMap_getitem_write_eq s k c _ Hcm).
  rewrite length_insert, Hp.
  rewrite list_insert_insert_eq, write_column_write_eq, insert_insert_eq.
  reflexivity.
Qed.

(** X6: two writes through views of one storage commute when they go
    under different names, or to different rows (counted from 0): if one
    order succeeds with a final heap, so does the other, with the same
    heap. *)
Theorem X6_writes_commute (h hA : heap) (v1 v2 : @ColumnStorageView Value)
    k1 k2 x y :
  storage v1 = storage v2 →
  k1 ≠ k2 ∨ ((0 ≤ index v1)%Z ∧ (0 ≤ index v2)%Z ∧ index v1 ≠ index v2) →
  bind (view_setitem v1 k1 x) (λ _, view_setitem v2 k2 y) h = (Ok (), hA) →
  bind (view_setitem v2 k2 y) (λ _, view_setitem v1 k1 x) h = (Ok (), hA).
Proof.
  intros Heq Hcases. unfold bind.
  destruct (h !! storage v1) as [s1|] eqn:Hs1;
    [|rewrite (view_setitem_dangling h v1 k1 x Hs1); discriminate].
  rewrite (view_setitem_eq h v1 s1 k1 x Hs1).
  destruct (ChainMap_getitem (columns s1) k1) as [c1|] eqn:Hcm1; [|discriminate].
  destruct (col_set c1 (index v1) x) as [c1'|] eqn:Hset1; [|discriminate].
  rewrite (view_setitem_eq _ v2 (write_column s1 k1 c1') k2 y)
    by (rewrite <- Heq; apply lookup_insert_eq).
  rewrite (view_setitem_eq h v2 s1 k2 y) by (rewrite <- Heq; exact Hs1).
  rewrite <- Heq.
  destruct (decide (k1 = k2)) as [<-|Hk].
  - (* one column, two rows *)
    destruct Hcases as [?|(H1 & H2 & Hidx)]; [congruence|].
    rewrite (ChainMap_getitem_write_eq s1 k1 c1 _ Hcm1), Hcm1.
    unfold col_set in *.
    rewrite position_front in Hset1 by assumption.
    rewrite !(position_front _ (index v2)) by assumption.
    case_bool_decide; [|discriminate]. injection Hset1 as <-.
    rewrite length_insert. case_bool_decide; [|discriminate].
    intros [= <-].
    rewrite (view_setitem_eq _ v1
               (write_column s1 k1 (<[Z.to_nat (index v2) := y]> c1)) k1 x)
      by apply lookup_insert_eq.
    rewrite (ChainMap_getitem_write_eq s1 k1 c1 _ Hcm1).
    unfold col_set. rewrite position_front by assumption.
    rewrite length_insert, bool_decide_true by assumption.
    rewrite !write_column_write_eq, !insert_insert_eq.
    rewrite list_insert_insert_ne by lia. reflexivity.
  - (* two columns *)
    rewrite (ChainMap_getitem_write_ne s1 k1 k2 c1' Hk).
    destruct (ChainMap_getitem (columns s1) k2) as [c2|] eqn:Hcm2; [|discriminate].
    destruct (col_set c2 (index v2) y) as [c2'|] eqn:Hset2; [|discriminate].
    intros [= <-].
    rewrite (view_setitem_eq _ v1 (write_column s1 k2 c2') k1 x)
      by apply lookup_insert_eq.
    rewrite (ChainMap_getitem_write_ne s1 k2 k1 c2') by congruence.
    rewrite Hcm1, Hset1, !insert_insert_eq.
    rewrite (write_column_commute s1 k1 k2) by assumption. reflexivity.
Qed.

(** ** A name held by more than one group *)

Lemma ChainMap_getitem_first (pre post : list dict) (d : dict) k c :
  Forall (λ m, k ∉ dict_keys m) pre → dict_get d k = Some c →
  ChainMap_getitem (pre ++ d :: post) k = Ok c.
Proof.
  intros Hpre Hd. induction Hpre as [|m pre Hm _ IH]; simpl.
  - rewrite Hd. reflexivity.
  - apply dict_get_None in Hm. rewrite Hm. exact IH.
Qed.

(** X7: when the chain of groups (tensor, doc, da, any) is split at the
    first group that holds a name, a read under that name is a read of
    that group's column, and a write under it changes nothing but that
    column: the groups before and after are as they were, also when one
    after it holds the same name. *)
Theorem X7_first_group_answers (h : heap) (v : @ColumnStorageView Value) s k
    (pre post : list dict) (d : dict) c :
  h !! storage v = Some s →
  columns s = pre ++ d :: post →
  Forall (λ m, k ∉ dict_keys m) pre →
  dict_get d k = Some c →
  view_getitem v k h = (col_get c (index v), h) ∧
  ∀ x r h', view_setitem v k x h = (r, h') →
    ∃ s' d', h' !! storage v = Some s' ∧
             columns s' = pre ++ d' :: post ∧
             dict_keys d' = dict_keys d ∧
             ∀ k', k' ≠ k → dict_get d' k' = dict_get d k'.
Proof.
  intros Hs Hcol Hpre Hd.
  assert (Hcm : ChainMap_getitem (columns s) k = Ok c)
    by (rewrite Hcol; apply ChainMap_getitem_first; assumption).
  split.
  { rewrite (view_getitem_eq h v s k Hs), Hcm. reflexivity. }
  intros x r h'. rewrite (view_setitem_eq h v s k x Hs), Hcm.
  destruct (col_set c (index v) x) as [c'|] eqn:Hset.
  2:{ intros [= <- <-]. exists s, d. auto. }
  intros [= <- <-]. exists (write_column s k c'), (dict_set d k c').
  split; [apply lookup_insert_eq|].
  split; [|split; [apply dict_keys_set | intros k' Hk; apply dict_get_set_ne; congruence]].
  destruct s as [t0 d0 a0 y0 dt tt]. unfold columns in Hcol. simpl in Hcol.
  unfold write_column, columns. simpl.
  clear Hs Hcm Hset.
  destruct pre as [|p1 [|p2 [|p3 [|p4 pre]]]]; simpl in Hcol;
    [| | | |destruct pre; discriminate];
    simplify_eq;
    repeat match goal with
    | H : Forall _ (_ :: _) |- _ => apply Forall_cons in H as [? H]
    | H : _ ∉ dict_keys _ |- _ => apply dict_get_None in H
    end;
    rewrite_dict_gets; reflexivity.
Qed.

(** ** Indexing a storage, further *)

Lemma ChainMap_keys_ext (s s' : @ColumnStorage Value) :
  dict_keys (tensor_columns s') = dict_keys (tensor_columns s) →
  dict_keys (doc_columns s') = dict_keys (doc_columns s) →
  dict_keys (da_columns s') = dict_keys (da_columns s) →
  dict_keys (any_columns s') = dict_keys (any_columns s) →
  ChainMap_keys (columns s') = ChainMap_keys (columns s) ∧
  ChainMap_len (columns s') = ChainMap_len (columns s).
Proof.
  intros Ht Hd Ha Hy. rewrite !ChainMap_len_keys.
  assert (ChainMap_keys (columns s') = ChainMap_keys (columns s)) as ->;
    [|auto].
  unfold ChainMap_keys, columns. simpl. rewrite Ht, Hd, Ha, Hy. reflexivity.
Qed.

(** X8: indexing never adds, drops, moves or renames a field: whatever the
    index expression, the storage it returns has in each group the names
    of that group in the storage indexed, in the same order; a view of
    the new storage has the size and iterates the names of a view of the
    old one. *)
Theorem X8_getitem_keeps_field_names (h h' : heap) (self l : loc) item s :
  h !! self = Some s →
  ColumnStorage_getitem self item h = (Ok l, h') →
  ∃ s', h' !! l = Some s' ∧
    dict_keys (tensor_columns s') = dict_keys (tensor_columns s) ∧
    dict_keys (doc_columns s') = dict_keys (doc_columns s) ∧
    dict_keys (da_columns s') = dict_keys (da_columns s) ∧
    dict_keys (any_columns s') = dict_keys (any_columns s) ∧
    ∀ i i', (view_iter (ColumnStorageView_init i' l) h').1
              = (view_iter (ColumnStorageView_init i self) h).1 ∧
            (view_len (ColumnStorageView_init i' l) h').1
              = (view_len (ColumnStorageView_init i self) h).1.
Proof.
  intros Hs. rewrite (ColumnStorage_getitem_eq h self s item Hs).
  destruct (index_storage s item) as [s'|] eqn:Hidx; [|discriminate].
  intros [= <- <-]. exists s'. split; [apply lookup_insert_eq|].
  apply index_storage_Ok in Hidx as (Ht & Hd & Ha & Hy & _).
  apply applied_keys in Ht, Hd, Ha, Hy.
  do 4 (split; [assumption|]).
  destruct (ChainMap_keys_ext s s' Ht Hd Ha Hy) as [Hk Hl].
  intros i i'. unfold view_iter, view_len, bind, load, ret. simpl.
  rewrite lookup_insert_eq, Hs. simpl. rewrite Hk, Hl. auto.
Qed.

(** X9: the length of an indexed storage. When [any_columns['id']] has [n]
    rows and indexing succeeds, the new storage has a length, and it is:
    for a list or tuple of integers, the number of integers; for a mask
    (which then has length [n]), the number of its true entries; for a
    slice, the number of positions the slice selects among [n]. *)
Theorem X9_len_of_indexed_storage (h h' : heap) (self l : loc) item s n :
  h !! self = Some s → I3 s n →
  ColumnStorage_getitem self item h = (Ok l, h') →
  ∃ n', ColumnStorage_len l h' = (Ok n', h') ∧
    match normalize_item item with
    | IList (IntSeq q) => n' = length q
    | IList (BoolSeq m) => length m = n ∧ n' = length (filter (λ b, b = true) m)
    | ISlice sl => ∃ ps, slice_positions n sl = Ok ps ∧ n' = length ps
    | ITuple _ | INone => False
    end.
Proof.
  intros Hs (c & Hid & Hlen). rewrite (ColumnStorage_getitem_eq h self s item Hs).
  destruct (index_storage s item) as [s'|] eqn:Hidx; [|discriminate].
  intros [= <- <-].
  apply index_storage_Ok in Hidx as (_ & _ & _ & Hy & _).
  destruct (applied_dict_get _ _ _ _ _ Hy Hid) as (c' & Hid' & Hc').
  exists (length c'). split.
  { unfold ColumnStorage_len, bind, load, ret.
    rewrite lookup_insert_eq, Hid'. reflexivity. }
  pose proof (col_getitem_shape c (normalize_item item)) as Hsh.
  rewrite Hc', Hlen in Hsh.
  destruct (normalize_item item) as [sl|[q|m]|?|]; simpl in Hsh;
    try discriminate.
  - destruct (slice_positions n sl) as [ps|]; [|discriminate].
    injection Hsh as Hsh. eauto.
  - destruct (forallb _ q); [|discriminate]. congruence.
  - case_bool_decide; [|discriminate]. split; [assumption|congruence].
Qed.

Lemma dict_comp_id (f : column → result column) (d : dict) :
  (∀ c, f c = Ok c) → dict_comp f d = Ok d.
Proof.
  intros Hf. induction d as [|[k c] d IH]; simpl; [reflexivity|].
  rewrite Hf, IH. reflexivity.
Qed.

(** X10: indexing any storage by [slice(None)] succeeds and allocates a
    new storage with the same groups, names, rows and types as the one
    indexed; no invariant of the storage is needed for that. *)
Theorem X10_full_slice_copies (h : heap) (self : loc) s :
  h !! self = Some s →
  ColumnStorage_getitem self (ISlice slice_all) h
    = (Ok (fresh (dom h)), <[fresh (dom h) := s]> h) ∧
  fresh (dom h) ≠ self.
Proof.
  intros Hs. split.
  - rewrite (ColumnStorage_getitem_eq h self s _ Hs).
    unfold index_storage. cbn [normalize_item].
    rewrite !(dict_comp_id _ _ col_getitem_slice_all). simpl.
    destruct s; reflexivity.
  - intros Heq. pose proof (fresh_loc_unused h) as Hf. congruence.
Qed.

Lemma applied_Forall (item : Item) (d d' : dict) :
  applied item d d' → Forall (λ kc, ∃ c', col_getitem kc.2 item = Ok c') d.
Proof.
  induction 1 as [|kc kc' d d' [_ Hc] _ IH]; constructor; eauto.
Qed.

Lemma index_storage_succeeds (s : @ColumnStorage Value) (item : Item) :
  (∃ s', index_storage s item = Ok s') ↔
  Forall (λ kc, ∃ c', col_getitem kc.2 (normalize_item item) = Ok c')
    (all_columns s).
Proof.
  split.
  - intros [s' Hidx]. apply index_storage_Ok in Hidx as (Ht & Hd & Ha & Hy & _).
    unfold all_columns. rewrite !Forall_app.
    repeat split; eapply applied_Forall; eassumption.
  - intros HF. destruct (index_storage s item) as [s'|e] eqn:Hidx; [eauto|].
    apply index_storage_Raise in Hidx as (k & c & Hin & Hc).
    rewrite Forall_forall in HF. destruct (HF _ Hin) as [c' Hc'].
    simpl in Hc'. congruence.
Qed.

(** X11: when indexing by a list that is not empty succeeds. By a list
    of integers: exactly when every integer denotes a row in every column
    of the storage. By a boolean mask: exactly when every column of the
    storage has the length of the mask. The storage need not be aligned
    for the question to be asked; a mask fails on every misaligned
    storage. The empty list, which is a list of integers as much as a
    mask, is left out. *)
Theorem X11_list_index_succeeds_iff (h : heap) (self : loc) s
    (q : list Z) (m : list bool) :
  h !! self = Some s →
  q ≠ [] →
  m ≠ [] →
  ((∃ l h', ColumnStorage_getitem self (IList (IntSeq q)) h = (Ok l, h')) ↔
   Forall (λ kc : string * column,
             Forall (λ i, (- length kc.2 ≤ i < length kc.2)%Z) q)
     (all_columns s)) ∧
  ((∃ l h', ColumnStorage_getitem self (IList (BoolSeq m)) h = (Ok l, h')) ↔
   I1 s (length m)).
Proof.
  intros Hs _ _.
  assert (Hok : ∀ item,
            (∃ l h', ColumnStorage_getitem self item h = (Ok l, h')) ↔
            ∃ s', index_storage s item = Ok s').
  { intros item. rewrite (ColumnStorage_getitem_eq h self s item Hs).
    destruct (index_storage s item) as [s'|e]; split; eauto.
    - intros (l & h' & [=]).
    - intros (s' & [=]). }
  split; rewrite Hok, index_storage_succeeds;
    unfold I1; apply Forall_iff; intros [k c]; simpl.
  - pose proof (col_gather_shape c q) as Hsh.
    assert (Hfb : forallb (λ i, bool_decide (is_Some (position (length c) i))) q
                  = true ↔ Forall (λ i, (- length c ≤ i < length c)%Z) q).
    { rewrite forallb_forall, Forall_forall. apply forall_proper. intros i.
      rewrite <- list_elem_of_In. apply forall_proper. intros _.
      rewrite bool_decide_eq_true. unfold position.
      repeat case_bool_decide; split; intros Hx; try lia; eauto;
        destruct Hx as [? [=]]. }
    rewrite <- Hfb. destruct (col_gather c q) as [r|e]; destruct Hsh as [Hb _].
    + split; eauto.
    + rewrite Hb. split; [intros [? [=]] | discriminate].
  - case_bool_decide; split; eauto; try congruence. intros [? [=]].
Qed.

End MoreProperties.

(** * Properties of shape validation *)

Section ShapeProperties.

Import AbstractTensor.

Context {Tensor Native : Type}.
Variable tuple_str : list dim → string.
Variable shape_of : Tensor → list Z.

Lemma check_dims_cases (err : exn) (known : gmap string Z) pairs :
  check_dims err known pairs = Ok () ∨ check_dims err known pairs = Raise err.
Proof.
  revert known. induction pairs as [|[tdim [n|x]] rest IH]; intros known; simpl.
  - auto.
  - case_bool_decide; auto.
  - destruct (known !! x); [case_bool_decide|]; auto.
Qed.

(** The loop accepts exactly when one binding of the names agrees with
    the dimensions already known and makes every pair match. *)
Lemma check_dims_Ok (err : exn) (known : gmap string Z) pairs :
  check_dims err known pairs = Ok () ↔
  ∃ σ, (∀ x v, known !! x = Some v → σ x = v) ∧
       Forall (λ p, matches σ p.1 p.2) pairs.
Proof.
  revert known. induction pairs as [|[tdim [n|x]] rest IH]; intros known; simpl.
  - split; [|reflexivity]. intros _.
    exists (λ x, default 0%Z (known !! x)). split; [|constructor].
    intros x v ->. reflexivity.
  - case_bool_decide as Hn.
    + split; [discriminate|]. intros (σ & _ & HF).
      apply Forall_cons in HF as [Hm _]. simpl in Hm. contradiction.
    + rewrite IH. split.
      * intros (σ & Hk & HF). exists σ. split; [exact Hk|].
        constructor; [exact Hn | exact HF].
      * intros (σ & Hk & HF). apply Forall_cons in HF as [_ HF]. eauto.
  - destruct (known !! x) as [v|] eqn:Hx.
    + case_bool_decide as Hv.
      * split; [discriminate|]. intros (σ & Hk & HF).
        apply Forall_cons in HF as [Hm _]. simpl in Hm.
        specialize (Hk _ _ Hx). congruence.
      * subst v. rewrite IH.
        rewrite insert_id by assumption. split.
        -- intros (σ & Hk & HF). exists σ. split; [exact Hk|].
           constructor; [simpl; symmetry; eauto | exact HF].
        -- intros (σ & Hk & HF). apply Forall_cons in HF as [_ HF]. eauto.
    + rewrite IH. split.
      * intros (σ & Hk & HF). exists σ. split.
        -- intros y v Hy. apply Hk. rewrite lookup_insert_ne; [exact Hy|].
           intros ->. congruence.
        -- constructor; [|exact HF]. simpl. symmetry. apply Hk.
           apply lookup_insert_eq.
      * intros (σ & Hk & HF). apply Forall_cons in HF as [Hm HF]. simpl in Hm.
        exists σ. split; [|exact HF]. intros y v.
        rewrite lookup_insert. case_decide as Hy.
        -- intros [= <-]. subst y. congruence.
        -- apply Hk.
Qed.

Lemma Forall_zip_Forall2 {A B} (R : A → B → Prop) (l : list A) (k : list B) :
  length l = length k →
  Forall (λ p, R p.1 p.2) (zip l k) ↔ Forall2 R l k.
Proof.
  revert k. induction l as [|a l IH]; intros [|b k]; simpl; try discriminate.
  - intros _. split; constructor.
  - intros [= Hlen]. rewrite Forall_cons, Forall2_cons, (IH k Hlen). reflexivity.
Qed.

Lemma ints_have_no_str (l : list Z) : existsb is_str (DInt <$> l) = false.
Proof. induction l as [|z l IH]; [reflexivity | exact IH]. Qed.

(** X12: against a target shape with at least one symbolic dimension, a
    tensor is accepted exactly when some binding of the names to integers
    turns the target shape into the shape of the tensor (each name one
    value throughout, each integer dimension equal). It is then returned
    as it is; otherwise the mismatch [ValueError] is raised. Either way no
    warning is issued. *)
Theorem X12_symbolic_shape_accepted_iff
    (reshape : Tensor → list Z → result Native)
    (from_native : Native → result Tensor) (t : Tensor) (shape : list dim) :
  existsb is_str shape = true →
  (validate_shape tuple_str shape_of reshape from_native t shape = (Ok t, []) ↔
   ∃ σ, Forall2 (matches σ) (shape_of t) shape) ∧
  (validate_shape tuple_str shape_of reshape from_native t shape = (Ok t, []) ∨
   validate_shape tuple_str shape_of reshape from_native t shape
     = (Raise (mismatch tuple_str shape (shape_of t)), [])).
Proof.
  intros Hstr. unfold validate_shape.
  rewrite bool_decide_false
    by (intros <-; rewrite ints_have_no_str in Hstr; discriminate).
  rewrite Hstr. case_bool_decide as Hlen.
  - split; [|auto]. split; [discriminate|].
    intros (σ & HF). apply Forall2_length in HF. contradiction.
  - pose proof (check_dims_Ok (mismatch tuple_str shape (shape_of t)) ∅
                  (zip (shape_of t) shape)) as Hok.
    destruct (check_dims_cases (mismatch tuple_str shape (shape_of t)) ∅
                (zip (shape_of t) shape)) as [Hc|Hc]; rewrite Hc in *; simpl.
    + split; [|auto]. split; [|reflexivity]. intros _.
      destruct (proj1 Hok eq_refl) as (σ & _ & HF). exists σ.
      apply Forall_zip_Forall2; assumption.
    + split; [|auto]. split; [discriminate|]. intros (σ & HF).
      assert (Raise (mismatch tuple_str shape (shape_of t)) = Ok ()) as [=].
      apply Hok. exists σ. split; [intros x v; rewrite lookup_empty; discriminate|].
      apply Forall_zip_Forall2; assumption.
Qed.

(** X13: whatever the backend does, validation never ends in a
    [RuntimeError]: one raised while reshaping or wrapping the reshaped
    value comes out as a [ValueError]. *)
Theorem X13_validate_never_RuntimeError
    (reshape : Tensor → list Z → result Native)
    (from_native : Native → result Tensor) (t : Tensor) (shape : list dim) e w :
  validate_shape tuple_str shape_of reshape from_native t shape = (Raise e, w) →
  ¬ is_RuntimeError e.
Proof.
  unfold validate_shape. case_bool_decide; [discriminate|].
  destruct (existsb is_str shape).
  - case_bool_decide; [intros [= <- _]; exact id|].
    destruct (check_dims_cases (mismatch tuple_str shape (shape_of t)) ∅
                (zip (shape_of t) shape)) as [-> | ->]; simpl;
      [discriminate | intros [= <- _]; exact id].
  - destruct (result_bind _ _) as [v|[]]; intros [= <- _]; exact id.
Qed.

(** X14: the backend is asked to reshape only for a target shape of
    integers that differs from the shape of the tensor. When the shapes
    are equal the tensor is returned as it is; when they are equal or the
    target has a symbolic dimension, the outcome is the same with any
    other [reshape] and [_docarray_from_native] and no warning is issued;
    in the remaining case exactly one warning is issued, whether the
    reshape succeeds or not. *)
Theorem X14_reshape_only_for_integer_mismatch
    (reshape reshape' : Tensor → list Z → result Native)
    (from_native from_native' : Native → result Tensor)
    (t : Tensor) (shape : list dim) :
  (DInt <$> shape_of t = shape →
   validate_shape tuple_str shape_of reshape from_native t shape = (Ok t, [])) ∧
  (DInt <$> shape_of t = shape ∨ existsb is_str shape = true →
   validate_shape tuple_str shape_of reshape from_native t shape
     = validate_shape tuple_str shape_of reshape' from_native' t shape ∧
   (validate_shape tuple_str shape_of reshape from_native t shape).2 = []) ∧
  (DInt <$> shape_of t ≠ shape → existsb is_str shape = false →
   length (validate_shape tuple_str shape_of reshape from_native t shape).2 = 1).
Proof.
  unfold validate_shape. split; [|split].
  - intros Heq. rewrite bool_decide_true by assumption. reflexivity.
  - intros Hcase. case_bool_decide; [auto|].
    destruct Hcase as [?|Hstr]; [contradiction|]. rewrite Hstr.
    case_bool_decide; auto.
  - intros Hne Hstr. rewrite bool_decide_false by assumption. rewrite Hstr.
    reflexivity.
Qed.

End ShapeProperties.

(** * Properties of push and pull *)

Section PushPullProperties.

Import PyStr PushPull.

Lemma app_cons (c : Ascii.ascii) (s t : string) :
  String c s +:+ t = String c (s +:+ t).
Proof. reflexivity. Qed.

Lemma app_nil_l (s : string) : "" +:+ s = s.
Proof. reflexivity. Qed.

Lemma app_assoc_string (s1 s2 s3 : string) :
  (s1 +:+ s2) +:+ s3 = s1 +:+ s2 +:+ s3.
Proof.
  induction s1 as [|c s1 IH]; [reflexivity|].
  rewrite !app_cons, IH. reflexivity.
Qed.

Lemma strip_prefix_Some (sep s r : string) :
  strip_prefix sep s = Some r ↔ s = sep +:+ r.
Proof.
  revert s. induction sep as [|a sep IH]; intros s; simpl.
  - rewrite app_nil_l. split; congruence.
  - rewrite app_cons. destruct s as [|b s]; [split; discriminate|].
    case_decide as Hab.
    + subst b. rewrite IH. split; congruence.
    + split; [discriminate | congruence].
Qed.

Lemma find_Some (sep s before after : string) :
  find sep s = Some (before, after) → s = before +:+ sep +:+ after.
Proof.
  revert before. induction s as [|c s IH]; intros before; simpl.
  - destruct (strip_prefix sep "") as [r|] eqn:Hr; [|discriminate].
    apply strip_prefix_Some in Hr. intros [= <- <-]. exact Hr.
  - destruct (strip_prefix sep (String c s)) as [r|] eqn:Hr.
    + apply strip_prefix_Some in Hr. intros [= <- <-]. exact Hr.
    + destruct (find sep s) as [[b a]|]; [|discriminate]. simpl.
      intros [= <- <-]. rewrite app_cons, <- (IH b eq_refl). reflexivity.
Qed.

Lemma find_None (sep s : string) :
  find sep s = None ↔ ¬ occurs sep s.
Proof.
  split.
  - induction s as [|c s IH]; simpl.
    + destruct (strip_prefix sep "") eqn:Hr; [discriminate|].
      intros _ (b & a & Hs). destruct b; [|discriminate].
      rewrite app_nil_l in Hs. apply strip_prefix_Some in Hs. congruence.
    + destruct (strip_prefix sep (String c s)) eqn:Hr; [discriminate|].
      destruct (find sep s) as [[b a]|] eqn:Hf; [discriminate|].
      intros _ (b & a & Hs). destruct b as [|c' b].
      * rewrite app_nil_l in Hs. apply strip_prefix_Some in Hs. congruence.
      * rewrite app_cons in Hs. injection Hs as _ Hs.
        apply IH; [reflexivity|]. exists b, a. exact Hs.
  - intros Hno. destruct (find sep s) as [[b a]|] eqn:Hf; [|reflexivity].
    exfalso. apply Hno. exists b, a. apply find_Some, Hf.
Qed.

(** The text before the leftmost occurrence holds no occurrence. *)
Lemma find_leftmost (sep s before after : string) :
  sep ≠ "" → find sep s = Some (before, after) → ¬ occurs sep before.
Proof.
  intros Hsep. revert before. induction s as [|c s IH]; intros before; simpl.
  - destruct (strip_prefix sep "") as [r|] eqn:Hr; [|discriminate].
    apply strip_prefix_Some in Hr. destruct sep; [congruence | discriminate].
  - destruct (strip_prefix sep (String c s)) as [r|] eqn:Hr.
    + intros [= <- <-] (b & a & Hb). destruct b; [|discriminate].
      rewrite app_nil_l in Hb. destruct sep; [congruence | discriminate].
    + destruct (find sep s) as [[b0 a0]|] eqn:Hf; [|discriminate]. simpl.
      intros [= <- <-] (b & a & Hb). destruct b as [|c' b].
      * rewrite app_nil_l in Hb. apply find_Some in Hf.
        assert (String c s = sep +:+ (a +:+ sep +:+ a0)) as Hs.
        { rewrite Hf, <- app_cons, Hb. apply app_assoc_string. }
        apply strip_prefix_Some in Hs. congruence.
      * rewrite app_cons in Hb. injection Hb as _ Hb.
        apply (IH b0 eq_refl). exists b, a. exact Hb.
Qed.

(** An occurrence of ["://"] that follows text free of it is the
    leftmost one. *)
Lemma find_url_sep (before after : string) :
  ¬ occurs "://" before →
  find "://" (before +:+ "://" +:+ after) = Some (before, after).
Proof.
  induction before as [|c b IH]; intros Hno.
  - reflexivity.
  - rewrite app_cons.
    assert (Hb : ¬ occurs "://" b).
    { intros (x & y & ->). apply Hno. exists (String c x), y. reflexivity. }
    assert (Hstrip : strip_prefix "://" (String c (b +:+ "://" +:+ after)) = None).
    { destruct (strip_prefix "://" (String c (b +:+ "://" +:+ after))) as [r|] eqn:Hr;
        [|reflexivity].
      exfalso. apply strip_prefix_Some in Hr. rewrite !app_cons in Hr.
      injection Hr as -> Hr. destruct b as [|c2 b].
      { rewrite app_nil_l in Hr. discriminate. }
      rewrite app_cons in Hr. injection Hr as -> Hr. destruct b as [|c3 b].
      { rewrite app_nil_l in Hr. discriminate. }
      rewrite app_cons in Hr. injection Hr as -> Hr.
      apply Hno. exists "", b. reflexivity. }
    simpl. simpl in Hstrip. rewrite Hstrip, (IH Hb). reflexivity.
Qed.

Lemma split_url_Ok (url protocol name : string) :
  split_url url = Ok (protocol, name) ↔
  url = protocol +:+ "://" +:+ name ∧
  ¬ occurs "://" protocol ∧ ¬ occurs "://" name.
Proof.
  unfold split_url. split.
  - cbn [split]. destruct (find "://" url) as [[b a]|] eqn:Hf; [|discriminate].
    destruct (find "://" a) as [[b2 a2]|] eqn:Hf2; [discriminate|].
    intros [= <- <-]. split; [apply find_Some, Hf|].
    split; [eapply find_leftmost; [discriminate | exact Hf]|].
    apply find_None, Hf2.
  - intros (-> & Hp & Hn). cbn [split].
    rewrite (find_url_sep _ _ Hp). apply find_None in Hn. rewrite Hn.
    reflexivity.
Qed.

(** X15: a URL unpacks into a protocol and a name exactly when it is
    [protocol://name] with no further ["://"] in either part. With no
    ["://"] at all, and with more than one, the unpacking raises a
    [ValueError]: the split allows two cuts, the assignment two names. *)
Theorem X15_split_url_iff (url protocol name : string) :
  (split_url url = Ok (protocol, name) ↔
   url = protocol +:+ "://" +:+ name ∧
   ¬ occurs "://" protocol ∧ ¬ occurs "://" name) ∧
  (¬ occurs "://" url →
   split_url url
     = Raise (ValueError "not enough values to unpack (expected 2, got 1)")) ∧
  (∀ a b c, ¬ occurs "://" a → ¬ occurs "://" b →
     split_url (a +:+ "://" +:+ b +:+ "://" +:+ c)
       = Raise (ValueError "too many values to unpack (expected 2)")).
Proof.
  split; [apply split_url_Ok|]. unfold split_url. split.
  - intros Hno. apply find_None in Hno. cbn [split]. rewrite Hno. reflexivity.
  - intros a b c Ha Hb. cbn [split].
    rewrite (find_url_sep _ _ Ha), (find_url_sep _ _ Hb). reflexivity.
Qed.

Context {Backend Listing Deleted Pushed Pulled DA Cls Branding : Type}.
Variable PushPullJAC : Backend.
Variable backend_list : Backend → bool → Listing.
Variable backend_delete : Backend → string → Deleted.
Variable backend_push :
  Backend → DA → string → bool → bool → option Branding → Pushed.
Variable backend_pull : Backend → Cls → string → bool → bool → Pulled.

Lemma get_backend_registered (protocol : string) (reg : gmap string Backend) b :
  reg !! protocol = Some b →
  get_backend PushPullJAC protocol reg = (Ok b, reg).
Proof.
  intros Hp. unfold get_backend, backends_getitem.
  rewrite bool_decide_true by (apply elem_of_dom; eauto).
  rewrite Hp. reflexivity.
Qed.

Lemma get_backend_jinaai (reg : gmap string Backend) :
  reg !! "jinaai" = None →
  get_backend PushPullJAC "jinaai" reg
    = (Ok PushPullJAC, <["jinaai" := PushPullJAC]> reg).
Proof.
  intros Hj. unfold get_backend, backends_getitem.
  rewrite bool_decide_false by (apply not_elem_of_dom; exact Hj).
  rewrite bool_decide_true, lookup_insert_eq by reflexivity. reflexivity.
Qed.

Lemma get_backend_other (protocol : string) (reg : gmap string Backend) :
  reg !! protocol = None → protocol ≠ "jinaai" →
  ∃ msg, get_backend PushPullJAC protocol reg
           = (Raise (NotImplementedError msg), reg).
Proof.
  intros Hp Hj. unfold get_backend.
  rewrite bool_decide_false by (apply not_elem_of_dom; exact Hp).
  rewrite (bool_decide_false _ Hj). repeat case_bool_decide; eauto.
Qed.

(** X16: [get_backend] answers exactly for a protocol that is registered
    or is [jinaai]; for any other it raises [NotImplementedError] and
    leaves the registry as it was. A registered protocol is answered from
    the registry, [file] and [s3] included; [jinaai], when not registered,
    is registered with the imported class and answered with it. *)
Theorem X16_get_backend_outcomes (protocol : string) (reg : gmap string Backend) :
  ((∃ b reg', get_backend PushPullJAC protocol reg = (Ok b, reg')) ↔
   protocol ∈ dom reg ∨ protocol = "jinaai") ∧
  (∀ b, reg !! protocol = Some b →
        get_backend PushPullJAC protocol reg = (Ok b, reg)) ∧
  (reg !! "jinaai" = None →
   get_backend PushPullJAC "jinaai" reg
     = (Ok PushPullJAC, <["jinaai" := PushPullJAC]> reg)) ∧
  (∀ e reg', get_backend PushPullJAC protocol reg = (Raise e, reg') →
             reg' = reg ∧ ∃ msg, e = NotImplementedError msg).
Proof.
  pose proof (get_backend_registered protocol reg) as Hreg.
  pose proof (get_backend_jinaai reg) as Hjac.
  pose proof (get_backend_other protocol reg) as Hother.
  split; [|split; [exact Hreg | split; [exact Hjac|]]].
  - split.
    + intros (b & reg' & Hget).
      destruct (reg !! protocol) as [b0|] eqn:Hp;
        [left; apply elem_of_dom; eauto|].
      destruct (decide (protocol = "jinaai")) as [|Hj]; [auto|].
      destruct (Hother eq_refl Hj) as [msg Hm]. congruence.
    + intros [Hin| ->].
      * apply elem_of_dom in Hin as [b Hp]. eauto.
      * destruct (reg !! "jinaai") as [b|] eqn:Hp; eauto.
  - intros e reg' Hget.
    destruct (reg !! protocol) as [b0|] eqn:Hp.
    { rewrite (Hreg b0 eq_refl) in Hget. discriminate. }
    destruct (decide (protocol = "jinaai")) as [->|Hj].
    { rewrite (Hjac Hp) in Hget. discriminate. }
    destruct (Hother eq_refl Hj) as [msg Hm]. rewrite Hm in Hget.
    injection Hget as <- <-. eauto.
Qed.

(** X17: [get_backend] caches. After it has answered, asking again for
    the same protocol gives the same backend and changes nothing more;
    the registry it leaves holds every entry it held before, unchanged,
    and at most the one new entry [jinaai]. *)
Theorem X17_get_backend_caches (protocol : string) (reg reg' : gmap string Backend) b :
  get_backend PushPullJAC protocol reg = (Ok b, reg') →
  get_backend PushPullJAC protocol reg' = (Ok b, reg') ∧
  reg ⊆ reg' ∧
  (∀ p, p ≠ "jinaai" → reg' !! p = reg !! p).
Proof.
  intros Hget. destruct (reg !! protocol) as [b0|] eqn:Hp.
  - rewrite (get_backend_registered _ _ _ Hp) in Hget. injection Hget as <- <-.
    rewrite (get_backend_registered _ _ _ Hp). auto.
  - destruct (decide (protocol = "jinaai")) as [->|Hj].
    + rewrite (get_backend_jinaai _ Hp) in Hget. injection Hget as <- <-.
      split; [apply get_backend_registered, lookup_insert_eq|].
      split; [apply insert_subseteq, Hp|].
      intros p Hne. apply lookup_insert_ne. congruence.
    + destruct (get_backend_other _ _ Hp Hj) as [msg Hm]. congruence.
Qed.

(** X18: [delete], [push] and [pull] look at the URL before anything
    else. For a URL that is not [protocol://name] with one ["://"], each
    of them raises the [ValueError] of the unpacking and leaves the
    registry as it was, so no backend is imported or called. For
    [protocol://name] each of them calls the method of the backend that
    [get_backend] answers for the protocol, with the name and its other
    arguments, and raises what [get_backend] raises. *)
Theorem X18_url_operations (url : string) (reg : gmap string Backend)
    (self : DA) (cls : Cls) (public show_progress local_cache : bool)
    (branding : option Branding) :
  (∀ e, split_url url = Raise e →
     delete PushPullJAC backend_delete url reg = (Raise e, reg) ∧
     push PushPullJAC backend_push self url public show_progress branding reg
       = (Raise e, reg) ∧
     pull PushPullJAC backend_pull cls url show_progress local_cache reg
       = (Raise e, reg)) ∧
  (∀ protocol name,
     url = protocol +:+ "://" +:+ name →
     ¬ occurs "://" protocol → ¬ occurs "://" name →
     match get_backend PushPullJAC protocol reg with
     | (Ok b, reg') =>
         delete PushPullJAC backend_delete url reg
           = (Ok (backend_delete b name), reg') ∧
         push PushPullJAC backend_push self url public show_progress branding reg
           = (Ok (backend_push b self name public show_progress branding), reg') ∧
         pull PushPullJAC backend_pull cls url show_progress local_cache reg
           = (Ok (backend_pull b cls name show_progress local_cache), reg')
     | (Raise e, reg') =>
         delete PushPullJAC backend_delete url reg = (Raise e, reg') ∧
         push PushPullJAC backend_push self url public show_progress branding reg
           = (Raise e, reg') ∧
         pull PushPullJAC backend_pull cls url show_progress local_cache reg
           = (Raise e, reg')
     end).
Proof.
  split.
  - intros e He. unfold delete, push, pull. rewrite He. auto.
  - intros protocol name Hurl Hp Hn.
    assert (Hsplit : split_url url = Ok (protocol, name)).
    { apply split_url_Ok. auto. }
    unfold delete, push, pull, bind. rewrite Hsplit.
    destruct (get_backend PushPullJAC protocol reg) as [[b|e] reg']; auto.
Qed.

End PushPullProperties.

(** * Properties of video URLs *)

Section VideoUrlProperties.

Import PyStr VideoUrl.

(** X19: a value is a valid video URL exactly when the parent class
    accepts it and the text ["mp4"] occurs somewhere in the URL it
    answers; where it occurs does not matter. The URL is then returned;
    when the parent accepts a URL without ["mp4"] a [ValueError] is
    raised, and what the parent raises is raised unchanged. *)
Theorem X19_validate_iff_mp4_occurs {Value : Type}
    (super_validate : Value → result string) (value : Value) :
  (∀ url, validate super_validate value = Ok url ↔
          super_validate value = Ok url ∧ occurs "mp4" url) ∧
  (∀ url, super_validate value = Ok url → ¬ occurs "mp4" url →
          ∃ msg, validate super_validate value = Raise (ValueError msg)) ∧
  (∀ e, super_validate value = Raise e →
        validate super_validate value = Raise e).
Proof.
  unfold validate, VIDEO_FILE_FORMATS, contains.
  destruct (super_validate value) as [u|e0]; simpl.
  - pose proof (find_None "mp4" u) as Hnone.
    destruct (find "mp4" u) as [[b a]|] eqn:Hf; simpl.
    + assert (Hocc : occurs "mp4" u) by (exists b, a; apply find_Some, Hf).
      split; [|split].
      * intros url. split; [intros [= <-]; auto | intros [[= <-] _]; reflexivity].
      * intros url [= <-] Hno. contradiction.
      * intros e [=].
    + assert (Hno : ¬ occurs "mp4" u) by (apply Hnone; reflexivity).
      split; [|split].
      * intros url. split; [intros [=] | intros [[= <-] Hocc]; contradiction].
      * intros url _ _. eauto.
      * intros e [=].
  - split; [|split].
    + intros url. split; [intros [=] | intros [[=] _]].
    + intros url [=].
    + intros e [= <-]. reflexivity.
Qed.

Context {AudioArray VideoArray : Type}.

Lemma decode_frames_snoc (frames : list (@frame AudioArray VideoArray)) f :
  decode_frames (frames ++ [f]) = decode_step (decode_frames frames) f.
Proof. unfold decode_frames. rewrite foldl_app. reflexivity. Qed.

Lemma omap_snoc {A B} (g : A → option B) (l : list A) (x : A) :
  omap g (l ++ [x]) = omap g l ++ match g x with Some y => [y] | None => [] end.
Proof. rewrite omap_app. simpl. destruct (g x); reflexivity. Qed.

(** X20: what the loop of [_load] collects. The audio arrays and the
    video arrays are those of the audio and of the video frames, in the
    order decoded. The key frame indices are recorded in increasing order
    and count from 1: [i] is recorded exactly when [i ≥ 1] and the video
    frame at position [i - 1] of the collected video frames has
    [key_frame == 1]; so every index is at most the number of video
    frames, and 0 is never recorded. *)
Theorem X20_key_frame_indices_count_from_one
    (frames : list (@frame AudioArray VideoArray)) :
  let '(audio_frames, video_frames, keyframe_indices) := decode_frames frames in
  audio_frames = audio_of frames ∧
  video_frames = (video_of frames).*1 ∧
  (∀ i, i ∈ keyframe_indices ↔
        1 ≤ i ∧ ∃ nd, video_of frames !! (i - 1) = Some (nd, 1%Z)) ∧
  Forall (λ i, 1 ≤ i ≤ length video_frames) keyframe_indices ∧
  (∀ j1 j2 i1 i2, j1 < j2 → keyframe_indices !! j1 = Some i1 →
                  keyframe_indices !! j2 = Some i2 → i1 < i2).
Proof.
  induction frames as [|f frames IH] using rev_ind.
  - simpl. split; [reflexivity|]. split; [reflexivity|].
    split; [|split; [constructor | intros ? ? ? ? _ [=]]].
    intros i. split; [intros Hi; apply elem_of_nil in Hi; contradiction|].
    intros (_ & nd & Hnd). discriminate.
  - rewrite decode_frames_snoc.
    destruct (decode_frames frames) as [[a v] idx].
    destruct IH as (Ha & Hv & Hidx & Hbound & Hsorted).
    unfold audio_of, video_of in *. rewrite !omap_snoc.
    destruct f as [nd|nd key]; simpl.
    + rewrite !app_nil_r. subst a. auto.
    + rewrite app_nil_r.
      assert (Hlen : length (omap (λ f, match f with
                                         | VideoFrame nd k => Some (nd, k)
                                         | AudioFrame _ => None
                                         end) frames) = length v).
      { subst v. rewrite length_fmap. reflexivity. }
      assert (Hold : ∀ i, (1 ≤ i ∧ ∃ nd0,
                 (omap (λ f, match f with
                             | VideoFrame nd k => Some (nd, k)
                             | AudioFrame _ => None
                             end) frames ++ [(nd, key)]) !! (i - 1)
                 = Some (nd0, 1%Z)) ↔
               (i ∈ idx ∨ (i = S (length v) ∧ key = 1%Z))).
      { intros i. rewrite Hidx. split.
        - intros (Hi & nd0 & Hl).
          apply lookup_app_Some in Hl as [Hl|[Hge Hl]]; [left; eauto|].
          right. rewrite Hlen in Hge, Hl.
          destruct (i - 1 - length v) as [|?] eqn:Hd; [|discriminate].
          injection Hl as _ ->. split; [lia | reflexivity].
        - intros [(Hi & nd0 & Hl)|[-> ->]].
          + split; [exact Hi|]. exists nd0. apply lookup_app_l_Some. exact Hl.
          + split; [lia|]. exists nd.
            replace (S (length v) - 1) with (length v) by lia.
            rewrite <- Hlen. apply list_lookup_middle. reflexivity. }
      case_bool_decide as Hkey.
      * subst key. rewrite fmap_app, length_app. simpl.
        split; [exact Ha|]. split; [subst v; reflexivity|].
        split; [|split].
        -- intros i. rewrite Hold, elem_of_app, list_elem_of_singleton.
           rewrite Nat.add_1_r. intuition.
        -- apply Forall_app. split.
           ++ eapply Forall_impl; [exact Hbound|]. simpl. intros; lia.
           ++ constructor; [lia | constructor].
        -- intros j1 j2 i1 i2 Hj H1 H2.
           apply lookup_app_Some in H2 as [H2|[Hge H2]].
           ++ rewrite lookup_app_l in H1
                by (apply lookup_lt_Some in H2; lia).
              exact (Hsorted j1 j2 i1 i2 Hj H1 H2).
           ++ destruct (j2 - length idx) as [|?] eqn:Hd; [|discriminate].
              injection H2 as <-.
              rewrite lookup_app_l in H1 by lia.
              rewrite Forall_forall in Hbound.
              apply list_elem_of_lookup_2, Hbound in H1. lia.
      * rewrite fmap_app, length_app. simpl.
        split; [exact Ha|]. split; [subst v; reflexivity|].
        split; [|split; [|exact Hsorted]].
        -- intros i. rewrite Hold. intuition.
        -- eapply Forall_impl; [exact Hbound|]. simpl. intros; lia.
Qed.

End VideoUrlProperties.

(** ** The scenario, checked *)

Lemma scenario_wf : wf scenario 3.
Proof.
  split; [|split].
  - repeat constructor.
  - apply (bool_decide_unpack _). vm_compute. exact I.
  - eexists. split; reflexivity.
Defined.

(** The scenario, run: the view of row 1 reads tag 2; after it writes 99
    the column holds 99 at row 1; indexing by [0, 2] gives a storage of
    length 2 with identifiers [a, c]. *)
Example scenario_run :
  let view := ColumnStorageView_init 1 0 in
  (view_getitem view "tag" scenario_heap).1 = Ok (VInt 2) ∧
  (bind (view_setitem view "tag" (VInt 99))
     (λ _, bind (load 0) (λ s, ret (cell (any_columns s) "tag" 1)))
     scenario_heap).1 = Ok (Some (VInt 99)) ∧
  (bind (ColumnStorage_getitem 0 (IList (IntSeq [0; 2]%Z)))
     (λ sub, bind (ColumnStorage_len sub) (λ n,
             bind (load sub) (λ s, ret (n, dict_get (any_columns s) "id"))))
     scenario_heap).1 = Ok (2, Some [VStr "a"; VStr "c"]).
Proof. vm_compute. auto. Qed.

Lemma C1_getitem_preserves_invariants_witness :
  ∃ n' s',
    ColumnStorage_getitem 0 (ITuple (IntSeq [2; -3]%Z)) scenario_heap
      = (Ok (fresh (dom scenario_heap)),
         <[fresh (dom scenario_heap) := s']> scenario_heap) ∧
    scenario_heap !! fresh (dom scenario_heap) = None ∧
    applied (IList (IntSeq [2; -3]%Z)) (tensor_columns scenario) (tensor_columns s') ∧
    applied (IList (IntSeq [2; -3]%Z)) (doc_columns scenario) (doc_columns s') ∧
    applied (IList (IntSeq [2; -3]%Z)) (da_columns scenario) (da_columns s') ∧
    applied (IList (IntSeq [2; -3]%Z)) (any_columns scenario) (any_columns s') ∧
    document_type s' = "MyDoc" ∧ tensor_type s' = "NdArray" ∧
    wf s' n'.
Proof.
  apply (C1_getitem_preserves_invariants scenario_heap 0 scenario 3).
  - reflexivity.
  - exact scenario_wf.
  - simpl. repeat constructor; lia.
Defined.

Lemma C2_gather_and_mask_rows_witness :
  ColumnStorage_getitem 0 (IList (IntSeq [2; 0; 0]%Z)) scenario_heap
    = (Ok (fresh (dom scenario_heap)),
       <[fresh (dom scenario_heap) := map_columns rows_CAA scenario]> scenario_heap) ∧
  ColumnStorage_getitem 0 (IList (BoolSeq [true; false; true])) scenario_heap
    = (Ok (fresh (dom scenario_heap)),
       <[fresh (dom scenario_heap) := map_columns rows_AC scenario]> scenario_heap).
Proof.
  apply (C2_gather_and_mask_rows scenario_heap 0 scenario).
  - reflexivity.
  - repeat constructor.
Defined.

Lemma C3_view_set_then_get_witness :
  ∃ h', view_setitem (ColumnStorageView_init 1 0) "tag" (VInt 99) scenario_heap
          = (Ok (), h') ∧
        view_getitem (ColumnStorageView_init 1 0) "tag" h' = (Ok (VInt 99), h') ∧
        view_getitem (ColumnStorageView_init 1 0) "tag" h' = (Ok (VInt 99), h').
Proof.
  apply (C3_view_set_then_get scenario_heap (ColumnStorageView_init 1 0)
           scenario 3 "tag" (VInt 99)).
  - reflexivity.
  - repeat constructor.
  - simpl. lia.
  - apply (bool_decide_unpack _). vm_compute. exact I.
Defined.

Lemma C4_len_is_id_column_length_witness :
  ColumnStorage_len 0 scenario_heap = (Ok 3, scenario_heap).
Proof.
  apply (C4_len_is_id_column_length scenario_heap 0 scenario
           [VStr "a"; VStr "b"; VStr "c"]); reflexivity.
Defined.

Lemma C5_getitem_failure_and_frame_witness :
  ∃ e, ColumnStorage_getitem 0 (ITuple (BoolSeq [true; false])) scenario_heap
         = (Raise e, scenario_heap) ∧ is_IndexError e.
Proof.
  apply (proj1 (C5_getitem_failure_and_frame scenario_heap 0 scenario
                  (ITuple (BoolSeq [true; false])) eq_refl) 3).
  - eexists. split; reflexivity.
  - simpl. lia.
Defined.

(** C5 as the specification words it fails: indexing the scenario by [5]
    raises an [IndexError] whose text names no group and no key of the
    storage, and the very same exception is raised when the tensor column
    is held under another key. *)
Lemma C5_error_names_no_column :
  ∃ e,
    ColumnStorage_getitem 0 (IList (IntSeq [5]%Z)) scenario_heap
      = (Raise e, scenario_heap) ∧
    is_IndexError e ∧
    forallb (λ g, forallb (λ k, negb (names_column e g k))
                    (dict_keys (all_columns scenario))) group_names = true ∧
    ColumnStorage_getitem 0 (IList (IntSeq [5]%Z)) {[ 0 := scenario_renamed ]}
      = (Raise e, {[ 0 := scenario_renamed ]}).
Proof.
  exists (IndexError "index out of range").
  repeat split; vm_compute; reflexivity.
Qed.

Lemma C6_views_share_by_index_witness :
  let v1 := ColumnStorageView_init 1 0 in
  let frame := λ d d' : list (string * list pyvalue),
    dict_keys d' = dict_keys d ∧
    ∀ k' p, k' ≠ "tag" ∨ p ≠ Z.to_nat (index v1) → cell d' k' p = cell d k' p in
  (let v2 := ColumnStorageView_init 1 0 in
   ∃ h' s',
     view_setitem v1 "tag" (VInt 99) scenario_heap = (Ok (), h') ∧
     h' = <[storage v1 := s']> scenario_heap ∧
     (index v1 = index v2 → view_getitem v2 "tag" h' = (Ok (VInt 99), h')) ∧
     (index v1 ≠ index v2 →
      ∀ k', (view_getitem v2 k' h').1 = (view_getitem v2 k' scenario_heap).1) ∧
     Forall2 frame (columns scenario) (columns s')) ∧
  (let v2 := ColumnStorageView_init 2 0 in
   ∃ h' s',
     view_setitem v1 "tag" (VInt 99) scenario_heap = (Ok (), h') ∧
     h' = <[storage v1 := s']> scenario_heap ∧
     (index v1 = index v2 → view_getitem v2 "tag" h' = (Ok (VInt 99), h')) ∧
     (index v1 ≠ index v2 →
      ∀ k', (view_getitem v2 k' h').1 = (view_getitem v2 k' scenario_heap).1) ∧
     Forall2 frame (columns scenario) (columns s')).
Proof.
  intros v1 frame. split; intros v2;
    apply (C6_views_share_by_index scenario_heap v1 v2 scenario 3 "tag" (VInt 99));
    try reflexivity; try (repeat constructor); try (simpl; lia);
    apply (bool_decide_unpack _); vm_compute; exact I.
Defined.

Lemma C7_view_lookup_and_KeyError_witness :
  let v := ColumnStorageView_init 1 0 in
  view_getitem v "nope" scenario_heap =
    (result_bind (ChainMap_getitem (columns scenario) "nope")
       (λ col, col_get col (index v)), scenario_heap) ∧
  ((∃ e, (view_getitem v "nope" scenario_heap).1 = Raise e ∧ is_KeyError e)
   ↔ absent scenario "nope") ∧
  (∀ x, (∃ e, (view_setitem v "nope" x scenario_heap).1 = Raise e ∧ is_KeyError e)
        ↔ absent scenario "nope").
Proof.
  intros v.
  apply (C7_view_lookup_and_KeyError scenario_heap v scenario "nope").
  reflexivity.
Defined.

(** C9, as the code has it, on the scenario (field names [vec] in the
    tensor group, [id] and [tag] in the any group): iterating the view of
    row 1, as [list(view)] and every [for] loop do, raises a [TypeError]
    and leaves the heap as it was, because [__iter__] answers a keys view
    and not an iterator. Only a direct call of [__iter__] gives names,
    and the keys view it answers yields [id, tag, vec], the any group
    first, where group order followed by insertion order is
    [vec, id, tag]. *)
Theorem C9_iterating_a_view_raises_TypeError :
  let v := ColumnStorageView_init 1 0 in
  builtin_iter v scenario_heap =
    (Raise (TypeError "iter() returned non-iterator of type 'KeysView'"),
     scenario_heap) ∧
  bind (ColumnStorageView_iter v) KeysView_iter scenario_heap =
    (Ok ["id"; "tag"; "vec"], scenario_heap) ∧
  dict_keys (tensor_columns scenario) ++ dict_keys (doc_columns scenario) ++
  dict_keys (da_columns scenario) ++ dict_keys (any_columns scenario)
    = ["vec"; "id"; "tag"].
Proof.
  intros v. split; [|split].
  - apply (builtin_iter_raises scenario_heap v scenario). reflexivity.
  - rewrite (keys_view_groups_last_to_first scenario_heap v scenario);
      [reflexivity | reflexivity |].
    apply (bool_decide_unpack _). vm_compute. exact I.
  - reflexivity.
Qed.

(** Two views of different rows of the scenario, and the empty
    dictionary, all compare equal. *)
Example scenario_views_equal :
  view_eq (ColumnStorageView_init 0 0) (ColumnStorageView_init 2 0 : @ColumnStorageView pyvalue) = true ∧
  (view_getitem (ColumnStorageView_init 0 0) "id" scenario_heap).1 = Ok (VStr "a") ∧
  (view_getitem (ColumnStorageView_init 2 0) "id" scenario_heap).1 = Ok (VStr "c").
Proof. vm_compute. auto. Qed.

(** ** Further checks on the scenario *)

Lemma X1_view_len_counts_fields_witness :
  view_len (ColumnStorageView_init 1 0) scenario_heap
    = (Ok (length (remove_dups (dict_keys (all_columns scenario)))), scenario_heap) ∧
  (I2 scenario ↔
   view_len (ColumnStorageView_init 1 0) scenario_heap = (Ok (1 + 0 + 0 + 2), scenario_heap)).
Proof.
  apply (X1_view_len_counts_fields scenario_heap (ColumnStorageView_init 1 0) scenario).
  reflexivity.
Defined.

Lemma X2_failed_write_changes_nothing_witness :
  scenario_heap = scenario_heap ∧
  ((KeyError "nope" = KeyError "nope" ∧ absent scenario "nope") ∨
   (is_IndexError (KeyError "nope") ∧
    ∃ c, ChainMap_getitem (columns scenario) "nope" = Ok c ∧
         position (length c) 1 = None)).
Proof.
  apply (X2_failed_write_changes_nothing scenario_heap scenario_heap
           (ColumnStorageView_init 1 0) scenario "nope" (VInt 0) (KeyError "nope"));
    reflexivity.
Defined.

Lemma X3_write_keeps_invariants_witness :
  let res := view_setitem (ColumnStorageView_init 1 0) "tag" (VInt 99) scenario_heap in
  (∃ s', res.2 !! 0 = Some s' ∧ wf s' 3) ∧
  ColumnStorage_len 0 res.2 = (Ok 3, res.2).
Proof.
  intros res.
  apply (X3_write_keeps_invariants scenario_heap res.2
           (ColumnStorageView_init 1 0) scenario 3 "tag" (VInt 99) res.1).
  - reflexivity.
  - exact scenario_wf.
  - apply surjective_pairing.
Defined.

Lemma X4_write_back_is_noop_witness :
  scenario_heap = scenario_heap ∧
  view_setitem (ColumnStorageView_init 1 0) "tag" (VInt 2) scenario_heap
    = (Ok (), scenario_heap).
Proof.
  apply (X4_write_back_is_noop scenario_heap scenario_heap
           (ColumnStorageView_init 1 0) "tag" (VInt 2)).
  reflexivity.
Defined.

Lemma X5_last_write_wins_witness :
  let v := ColumnStorageView_init 1 0 in
  view_setitem v "tag" (VInt 7)
    (view_setitem v "tag" (VInt 99) scenario_heap).2
  = view_setitem v "tag" (VInt 7) scenario_heap.
Proof.
  intros v.
  apply (X5_last_write_wins scenario_heap _ v "tag" (VInt 99) (VInt 7)).
  reflexivity.
Defined.

Lemma X6_writes_commute_witness :
  let v1 := ColumnStorageView_init 0 0 in
  let v2 := ColumnStorageView_init 2 0 in
  let hA := (bind (view_setitem v1 "tag" (VInt 7))
               (λ _, view_setitem v2 "tag" (VInt 9)) scenario_heap).2 in
  bind (view_setitem v2 "tag" (VInt 9)) (λ _, view_setitem v1 "tag" (VInt 7))
    scenario_heap = (Ok (), hA).
Proof.
  intros v1 v2 hA.
  apply (X6_writes_commute scenario_heap hA v1 v2 "tag" "tag" (VInt 7) (VInt 9)).
  - reflexivity.
  - right. simpl. repeat split; [lia | lia | discriminate].
  - reflexivity.
Defined.

Lemma X7_first_group_answers_witness :
  let h : gmap nat (@ColumnStorage pyvalue) := {[ 0 := shadowing ]} in
  let v := ColumnStorageView_init 1 0 in
  view_getitem v "x" h = (Ok (VInt 2), h) ∧
  ∀ x r h', view_setitem v "x" x h = (r, h') →
    ∃ s' d', h' !! 0 = Some s' ∧
             columns s' = [] ++ d' :: [[]; []; any_columns shadowing] ∧
             dict_keys d' = ["x"] ∧
             ∀ k', k' ≠ "x" → dict_get d' k' = dict_get (tensor_columns shadowing) k'.
Proof.
  intros h v.
  apply (X7_first_group_answers h v shadowing "x" []
           [[]; []; any_columns shadowing] (tensor_columns shadowing)
           [VInt 1; VInt 2]).
  - reflexivity.
  - reflexivity.
  - constructor.
  - reflexivity.
Defined.

Lemma X8_getitem_keeps_field_names_witness :
  ∃ s', <[1 := map_columns rows_CAA scenario]> scenario_heap !! 1 = Some s' ∧
    dict_keys (tensor_columns s') = ["vec"] ∧
    dict_keys (doc_columns s') = [] ∧
    dict_keys (da_columns s') = [] ∧
    dict_keys (any_columns s') = ["id"; "tag"] ∧
    ∀ i i', (view_iter (ColumnStorageView_init i' 1)
               (<[1 := map_columns rows_CAA scenario]> scenario_heap)).1
              = (view_iter (ColumnStorageView_init i 0) scenario_heap).1 ∧
            (view_len (ColumnStorageView_init i' 1)
               (<[1 := map_columns rows_CAA scenario]> scenario_heap)).1
              = (view_len (ColumnStorageView_init i 0) scenario_heap).1.
Proof.
  apply (X8_getitem_keeps_field_names scenario_heap _ 0 1
           (IList (IntSeq [2; 0; 0]%Z)) scenario).
  - reflexivity.
  - reflexivity.
Defined.

Lemma X9_len_of_indexed_storage_witness :
  ∃ n', ColumnStorage_len 1 (<[1 := map_columns rows_AC scenario]> scenario_heap)
          = (Ok n', <[1 := map_columns rows_AC scenario]> scenario_heap) ∧
        length [true; false; true] = 3 ∧
        n' = length (filter (λ b, b = true) [true; false; true]).
Proof.
  apply (X9_len_of_indexed_storage scenario_heap _ 0 1
           (ITuple (BoolSeq [true; false; true])) scenario 3).
  - reflexivity.
  - eexists. split; reflexivity.
  - reflexivity.
Defined.

Lemma X10_full_slice_copies_witness :
  ColumnStorage_getitem 0 (ISlice slice_all) scenario_heap
    = (Ok (fresh (dom scenario_heap)),
       <[fresh (dom scenario_heap) := scenario]> scenario_heap) ∧
  fresh (dom scenario_heap) ≠ 0.
Proof.
  apply (X10_full_slice_copies scenario_heap 0 scenario). reflexivity.
Defined.

Lemma X11_list_index_succeeds_iff_witness :
  let h : gmap nat (@ColumnStorage pyvalue) := {[ 0 := shadowing ]} in
  ((∃ l h', ColumnStorage_getitem 0 (IList (IntSeq [0; -1]%Z)) h = (Ok l, h')) ↔
   Forall (λ kc : string * list pyvalue,
             Forall (λ i, (- length kc.2 ≤ i < length kc.2)%Z) [0; -1]%Z)
     (all_columns shadowing)) ∧
  ((∃ l h', ColumnStorage_getitem 0 (IList (BoolSeq [true; false])) h = (Ok l, h')) ↔
   I1 shadowing (length [true; false])).
Proof.
  intros h.
  apply (X11_list_index_succeeds_iff h 0 shadowing [0; -1]%Z [true; false]);
    [reflexivity | discriminate | discriminate].
Defined.

(** A tensor known by its shape alone, under a backend that can always
    reshape, and under one that never can. *)
Lemma X12_symbolic_shape_accepted_iff_witness :
  let shape := [AbstractTensor.DStr "n"; AbstractTensor.DInt 3;
                AbstractTensor.DStr "n"] in
  let validate :=
    AbstractTensor.validate_shape (λ _, "") (λ t : list Z, t)
      (λ _ sh, Ok sh) (λ n : list Z, Ok n) in
  (validate [2; 3; 2]%Z shape = (Ok [2; 3; 2]%Z, []) ↔
   ∃ σ, Forall2 (AbstractTensor.matches σ) [2; 3; 2]%Z shape) ∧
  (validate [2; 3; 2]%Z shape = (Ok [2; 3; 2]%Z, []) ∨
   validate [2; 3; 2]%Z shape
     = (Raise (AbstractTensor.mismatch (λ _, "") shape [2; 3; 2]%Z), [])).
Proof.
  intros shape validate.
  apply (X12_symbolic_shape_accepted_iff (λ _, "") (λ t : list Z, t)
           (λ _ sh, Ok sh) (λ n : list Z, Ok n) [2; 3; 2]%Z shape).
  reflexivity.
Defined.

Lemma X13_validate_never_RuntimeError_witness :
  ¬ is_RuntimeError (ValueError "Cannot reshape tensor of shape  to shape ").
Proof.
  apply (X13_validate_never_RuntimeError (λ _, "") (λ t : list Z, t)
           (λ _ _, Raise (RuntimeError "shape is invalid for input"))
           (λ n : list Z, Ok n) [2; 3; 4]%Z
           [AbstractTensor.DInt 6; AbstractTensor.DInt 5] _
           ["Tensor shape mismatch. Reshaping tensor of shape  to shape "]).
  reflexivity.
Defined.

Lemma X17_get_backend_caches_witness :
  PushPull.get_backend "PushPullJAC" "jinaai" {[ "jinaai" := "PushPullJAC" ]}
    = (PushPull.Ok "PushPullJAC", {[ "jinaai" := "PushPullJAC" ]}) ∧
  (∅ : gmap string string) ⊆ {[ "jinaai" := "PushPullJAC" ]} ∧
  (∀ p, p ≠ "jinaai" →
        ({[ "jinaai" := "PushPullJAC" ]} : gmap string string) !! p
        = (∅ : gmap string string) !! p).
Proof.
  apply (X17_get_backend_caches "PushPullJAC" "jinaai" ∅
           {[ "jinaai" := "PushPullJAC" ]} "PushPullJAC").
  reflexivity.
Defined.

(** The URLs [jinaai://name], [name] and [jinaai://a://b] at work. *)
Example pushpull_urls :
  PushPull.split_url "jinaai://name" = PushPull.Ok ("jinaai", "name") ∧
  PushPull.split_url "name"
    = PushPull.Raise
        (PushPull.ValueError "not enough values to unpack (expected 2, got 1)") ∧
  PushPull.split_url "jinaai://a://b"
    = PushPull.Raise (PushPull.ValueError "too many values to unpack (expected 2)") ∧
  PushPull.delete "PushPullJAC" (λ b name, (b, name)) "jinaai://name" ∅
    = (PushPull.Ok ("PushPullJAC", "name"), {[ "jinaai" := "PushPullJAC" ]}) ∧
  PushPull.delete "PushPullJAC" (λ b name, (b, name)) "file://name" ∅
    = (PushPull.Raise
         (PushPull.NotImplementedError "file protocol not implemented yet"), ∅).
Proof. vm_compute. auto 10. Qed.

(** A URL with [mp4] in its host name is taken for a video URL, one with
    the extension in capitals is not; of the video frames [k, -, k] the
    key frames are recorded as 1 and 3. *)
Example video_url_run :
  VideoUrl.validate Ok "http://mp4.example.com/notes.txt"
    = Ok "http://mp4.example.com/notes.txt" ∧
  VideoUrl.validate Ok "http://example.com/film.MP4"
    = Raise (ValueError
               "Video URL must have one of the following extensions:['mp4']") ∧
  VideoUrl.decode_frames
    [VideoUrl.VideoFrame "v0" 1%Z; VideoUrl.AudioFrame "a0";
     VideoUrl.VideoFrame "v1" 0%Z; VideoUrl.VideoFrame "v2" 1%Z]
    = (["a0"], ["v0"; "v1"; "v2"], [1; 3]).
Proof. vm_compute. auto. Qed.
